(** * cpfyp: the C++ market-data engine

    A shallow embedding of the C++ engine under [cpp/]: the normalised
    record [PriceUpdate] and its JSON encoding, the five venue parsers with
    their symbol maps, the reconnecting [WebSocketClient] session and the
    [PriceFeedServer] fan-out, followed by the properties proved of them.

    Conventions.
    - [std::string] is [string] (a sequence of bytes); [size_t] is [Z]
      with the 64-bit wrap-around written out ([wrap], [npos]).
    - C++ exceptions are the [Throw] branch of [result]; a [try]/[catch]
      is a [match] on it.
    - a finite non-zero [double] is a sign and an integer significand
      times a power of two; conversions from and to decimal text round to
      nearest, ties to even, as glibc does.
    - Asynchronous operations are entries of a pending list; their
      completion handlers are the step functions of the session. *)

From Stdlib Require Import ZArith String Ascii List Lia Bool.
From stdpp Require Import base gmap strings list fin_maps.

Open Scope string_scope.
Open Scope Z_scope.

(** ** Characters *)

Definition code (c : ascii) : Z := Z.of_N (N_of_ascii c).

Definition dquote : ascii := "034"%char.
Definition backslash : ascii := "092"%char.
Definition LF : ascii := "010"%char.
Definition NUL : ascii := "000"%char.

(** Source literals are written with an apostrophe where the C++ text has
    a double quote; [lit] puts the double quotes back. *)
Fixpoint lit (s : string) : string :=
  match s with
  | EmptyString => EmptyString
  | String c r => String (if code c =? 39 then dquote else c) (lit r)
  end.

Definition is_digit (c : ascii) : bool := (48 <=? code c) && (code c <=? 57).

Definition isspace (c : ascii) : bool :=
  (code c =? 32) || ((9 <=? code c) && (code c <=? 13)).

(** [::tolower] in the "C" locale. *)
Definition tolower (c : ascii) : ascii :=
  if (65 <=? code c) && (code c <=? 90)
  then ascii_of_N (Z.to_N (code c + 32)) else c.

(** ** Exceptions *)

Inductive exception : Type :=
| std_invalid_argument
| std_out_of_range.

Inductive result (A : Type) : Type :=
| Ok (a : A)
| Throw (e : exception).
Arguments Ok {A} a.
Arguments Throw {A} e.

#[global] Instance result_ret : MRet result := fun A a => Ok a.

#[global] Instance result_bind : MBind result := fun A B k r =>
  match r with
  | Ok a => k a
  | Throw e => Throw e
  end.

(** ** std::string *)

Module StdString.

Definition npos : Z := 2 ^ 64 - 1.
Definition wrap (x : Z) : Z := x mod 2 ^ 64.

Definition size (s : string) : Z := Z.of_nat (String.length s).
Definition empty (s : string) : bool := size s =? 0.

Fixpoint drop (n : nat) (s : string) : string :=
  match n, s with
  | O, _ => s
  | S n', String _ r => drop n' r
  | S _, EmptyString => EmptyString
  end.

(** Offset of the first occurrence of [pat] in [s], if any. *)
Fixpoint first_occurrence (pat s : string) : option nat :=
  if String.prefix pat s then Some O
  else match s with
       | EmptyString => None
       | String _ r => option_map S (first_occurrence pat r)
       end.

(** [s.find(pat, pos)]. *)
Definition find (s pat : string) (pos : Z) : Z :=
  if size s <? pos then npos
  else match first_occurrence pat (drop (Z.to_nat pos) s) with
       | Some i => pos + Z.of_nat i
       | None => npos
       end.

(** Highest offset [<= i] at which [pat] occurs in [s]. *)
Fixpoint last_occurrence (pat s : string) (i : nat) : Z :=
  if String.prefix pat (drop i s) then Z.of_nat i
  else match i with
       | O => npos
       | S i' => last_occurrence pat s i'
       end.

(** [s.rfind(pat, pos)]. *)
Definition rfind (s pat : string) (pos : Z) : Z :=
  if size pat <=? size s
  then last_occurrence pat s (Z.to_nat (Z.min (size s - size pat) pos))
  else npos.

(** [s.substr(pos, n)]: throws when [pos > size()]. *)
Definition substr (s : string) (pos n : Z) : result string :=
  if size s <? pos then Throw std_out_of_range
  else Ok (String.substring (Z.to_nat pos)
             (Z.to_nat (Z.min n (size s - pos))) s).

(** [s.find_first_not_of(" \t\n\r")]. *)
Fixpoint find_first_not_of_ws (s : string) (i : Z) : Z :=
  match s with
  | EmptyString => npos
  | String c r =>
      if (code c =? 32) || (code c =? 9) || (code c =? 10) || (code c =? 13)
      then find_first_not_of_ws r (i + 1) else i
  end.

(** [s[i]] for [i < size()]. *)
Definition at_ (s : string) (i : Z) : option ascii := String.get (Z.to_nat i) s.

(** [s.c_str()] read as a C string: the bytes before the first NUL. *)
Fixpoint c_str (s : string) : string :=
  match s with
  | EmptyString => EmptyString
  | String c r => if code c =? 0 then EmptyString else String c (c_str r)
  end.

(** [std::transform(s.begin(), s.end(), s.begin(), ::tolower)]. *)
Fixpoint transform_tolower (s : string) : string :=
  match s with
  | EmptyString => EmptyString
  | String c r => String (tolower c) (transform_tolower r)
  end.

End StdString.

(** ** double, std::stod and fixed-point output *)

Module Double.

(** An IEEE 754 binary64 datum: signed zero, signed infinity, NaN (with
    its sign bit), or [(-1)^s * m * 2^e] with [0 < m < 2^53] and
    [-1074 <= e <= 971]. *)
Inductive double : Type :=
| DZero (s : bool)
| DInf (s : bool)
| DNaN (s : bool)
| DFinite (s : bool) (m : positive) (e : Z).

Definition is_finite (d : double) : bool :=
  match d with
  | DZero _ | DFinite _ _ _ => true
  | DInf _ | DNaN _ => false
  end.

(** [num / den] rounded to the nearest integer, ties to even
    ([0 <= num], [0 < den]). *)
Definition round_half_even (num den : Z) : Z :=
  let n := num / den in
  let r := num mod den in
  if 2 * r <? den then n
  else if den <? 2 * r then n + 1
  else if Z.even n then n else n + 1.

(** [p / (q * 2^e)] as a fraction of integers. *)
Definition scale2 (p q e : Z) : Z * Z :=
  if 0 <=? e then (p, q * 2 ^ e) else (p * 2 ^ (- e), q).

(** The binary64 nearest to [p / q] ([0 < p], [0 < q]), and whether the
    conversion reports ERANGE: on overflow, and when the result is below
    the least normal number and inexact. *)
Definition round_to_double (s : bool) (p q : Z) : double * bool :=
  let e1 := Z.log2 p - Z.log2 q - 52 in
  let '(n1, d1) := scale2 p q e1 in
  let e2 := if n1 / d1 <? 2 ^ 52 then e1 - 1 else e1 in
  let e0 := Z.max e2 (-1074) in
  let '(n, d) := scale2 p q e0 in
  let m0 := round_half_even n d in
  let inexact := negb (n mod d =? 0) in
  let '(m, e) := if m0 =? 2 ^ 53 then (2 ^ 52, e0 + 1) else (m0, e0) in
  if 971 <? e then (DInf s, true)
  else match m with
       | Zpos m' => (DFinite s m' e, (m <? 2 ^ 52) && inexact)
       | _ => (DZero s, true)
       end.

(** *** strtod *)

Fixpoint skip_space (s : string) : string :=
  match s with
  | String c r => if isspace c then skip_space r else s
  | EmptyString => s
  end.

Definition hex_val (c : ascii) : option Z :=
  if is_digit c then Some (code c - 48)
  else if (97 <=? code c) && (code c <=? 102) then Some (code c - 87)
  else if (65 <=? code c) && (code c <=? 70) then Some (code c - 55)
  else None.

(** Reads a run of decimal digits: the number read on top of [acc], how
    many digits there were, and the text after them. *)
Fixpoint scan_dec (s : string) (acc cnt : Z) : Z * Z * string :=
  match s with
  | String c r =>
      if is_digit c then scan_dec r (10 * acc + (code c - 48)) (cnt + 1)
      else (acc, cnt, s)
  | EmptyString => (acc, cnt, s)
  end.

Fixpoint scan_hex (s : string) (acc cnt : Z) : Z * Z * string :=
  match s with
  | String c r =>
      match hex_val c with
      | Some v => scan_hex r (16 * acc + v) (cnt + 1)
      | None => (acc, cnt, s)
      end
  | EmptyString => (acc, cnt, s)
  end.

(** Case-insensitive test that [s] starts with the lower-case word [w]. *)
Fixpoint starts_with_ci (w s : string) : bool :=
  match w, s with
  | EmptyString, _ => true
  | String a w', String c r => Ascii.eqb a (tolower c) && starts_with_ci w' r
  | String _ _, EmptyString => false
  end.

(** An exponent part: the marker ([e] or [p]), an optional sign and at
    least one decimal digit; 0 when there is none. *)
Definition scan_exponent (marker : ascii) (s : string) : Z :=
  match s with
  | String c r =>
      if Ascii.eqb (tolower c) marker then
        let '(neg, r1) :=
          match r with
          | String c1 r' =>
              if code c1 =? 45 then (true, r')
              else if code c1 =? 43 then (false, r') else (false, r)
          | EmptyString => (false, r)
          end in
        let '(v, n, _) := scan_dec r1 0 0 in
        if n =? 0 then 0 else if neg then - v else v
      else 0
  | EmptyString => 0
  end.

(** What the subject sequence of [strtod] denotes, sign apart. *)
Inductive magnitude : Type :=
| MagInf
| MagNaN
| MagRatio (p q : Z).

(** [m * b^k] as a fraction. *)
Definition ratio (m b k : Z) : magnitude :=
  if 0 <=? k then MagRatio (m * b ^ k) 1 else MagRatio m (b ^ (- k)).

(** The text after [0x], when a hexadecimal significand starts there. *)
Definition hex_body (s : string) : option string :=
  match s with
  | String c0 (String cx r) =>
      if (code c0 =? 48) && (code (tolower cx) =? 120) then
        match r with
        | String c r' =>
            match hex_val c with
            | Some _ => Some r
            | None =>
                if code c =? 46 then
                  match r' with
                  | String c' _ => match hex_val c' with
                                   | Some _ => Some r
                                   | None => None
                                   end
                  | EmptyString => None
                  end
                else None
            end
        | EmptyString => None
        end
      else None
  | _ => None
  end.

Definition scan_significand
    (scan : string -> Z -> Z -> Z * Z * string) (s : string)
  : Z * Z * Z * string :=
  let '(m1, n1, r1) := scan s 0 0 in
  match r1 with
  | String c r =>
      if code c =? 46 then
        let '(m, n2, r2) := scan r m1 0 in (m, n1, n2, r2)
      else (m1, n1, 0, r1)
  | EmptyString => (m1, n1, 0, r1)
  end.

(** The longest initial subject sequence of [s] (after white space and
    sign), or [None] when no conversion can be performed. *)
Definition strtod_magnitude (s : string) : option magnitude :=
  if starts_with_ci "inf" s then Some MagInf
  else if starts_with_ci "nan" s then Some MagNaN
  else match hex_body s with
       | Some h =>
           let '(m, _, n2, r) := scan_significand scan_hex h in
           Some (ratio m 2 (scan_exponent "p" r - 4 * n2))
       | None =>
           let '(m, n1, n2, r) := scan_significand scan_dec s in
           if n1 + n2 =? 0 then None
           else Some (ratio m 10 (scan_exponent "e" r - n2))
       end.

(** [std::stod(str)]: [strtod] on [str.c_str()]; [std::invalid_argument]
    when nothing was converted, [std::out_of_range] on ERANGE. *)
Definition stod (str : string) : result double :=
  let s := skip_space (StdString.c_str str) in
  let '(sgn, s1) :=
    match s with
    | String c r =>
        if code c =? 45 then (true, r)
        else if code c =? 43 then (false, r) else (false, s)
    | EmptyString => (false, s)
    end in
  match strtod_magnitude s1 with
  | None => Throw std_invalid_argument
  | Some MagInf => Ok (DInf sgn)
  | Some MagNaN => Ok (DNaN sgn)
  | Some (MagRatio p q) =>
      if p =? 0 then Ok (DZero sgn)
      else let '(d, erange) := round_to_double sgn p q in
           if erange then Throw std_out_of_range else Ok d
  end.

(** *** Output *)

Definition digit_char (d : Z) : ascii := ascii_of_N (Z.to_N (48 + d)).

(** The [k] low decimal digits of [n], most significant first, before
    [acc]. *)
Fixpoint fixed_digits (k : nat) (n : Z) (acc : string) : string :=
  match k with
  | O => acc
  | S k' => fixed_digits k' (n / 10) (String (digit_char (n mod 10)) acc)
  end.

(** The decimal digits of [n >= 0] without leading zeros, before [acc]. *)
Fixpoint dec_digits (fuel : nat) (n : Z) (acc : string) : string :=
  let acc' := String (digit_char (n mod 10)) acc in
  match fuel with
  | O => acc'
  | S f => if n <? 10 then acc' else dec_digits f (n / 10) acc'
  end.

Definition dec (n : Z) : string := dec_digits (Z.to_nat (Z.log2 n)) n "".

(** [os << n] for a signed integer. *)
Definition put_int (n : Z) : string :=
  if n <? 0 then String "-" (dec (- n)) else dec n.

Definition sign_text (s : bool) : string := if s then "-" else "".

(** The radix point and [prec] fractional digits; nothing when [prec] is 0. *)
Definition fraction_text (prec : nat) (n : Z) : string :=
  match prec with
  | O => ""
  | S _ => String "." (fixed_digits prec n "")
  end.

(** [m * 2^e] in fixed notation with [prec] fractional digits. *)
Definition fixed_magnitude (prec : nat) (m : positive) (e : Z) : string :=
  let scale := 10 ^ Z.of_nat prec in
  let '(num, den) := scale2 (Zpos m * scale) 1 (- e) in
  let n := round_half_even num den in
  dec (n / scale) +:+ fraction_text prec (n mod scale).

(** [os << std::fixed << std::setprecision(prec) << d]. *)
Definition put_fixed (prec : nat) (d : double) : string :=
  match d with
  | DZero s => sign_text s +:+ "0" +:+ fraction_text prec 0
  | DInf s => sign_text s +:+ "inf"
  | DNaN s => sign_text s +:+ "nan"
  | DFinite s m e => sign_text s +:+ fixed_magnitude prec m e
  end.

End Double.

Export Double.

(** ** PriceUpdate (price_update.hpp, price_update.cpp) *)

(** [timestamp] is a [system_clock::time_point]: nanoseconds since the
    Unix epoch. *)
Record PriceUpdate : Type := {
  exchange : string;
  pair : string;
  bid : double;
  ask : double;
  timestamp : Z
}.

(** [duration_cast<milliseconds>(timestamp.time_since_epoch()).count()]. *)
Definition timestamp_ms (u : PriceUpdate) : Z := Z.quot (timestamp u) 1000000.

Definition to_json (u : PriceUpdate) : string :=
  let ms := timestamp_ms u in
  lit "{'exchange':'" +:+ exchange u +:+ lit "',"
  +:+ lit "'pair':'" +:+ pair u +:+ lit "',"
  +:+ lit "'bid':" +:+ put_fixed 8 (bid u) +:+ ","
  +:+ lit "'ask':" +:+ put_fixed 8 (ask u) +:+ ","
  +:+ lit "'timestamp':" +:+ put_int ms +:+ "}".

(** ** The substring scanners of the venue clients

    binance_client.cpp, coinbase_client.cpp, bybit_client.cpp and
    okx_client.cpp each carry the same two helpers in an anonymous
    namespace; kraken_client.cpp has [is_array] and [get_nested_value]. *)

Module Scan.
Import StdString.

Definition quoted (key : string) : string :=
  String dquote (key +:+ String dquote "").

Definition DQ : string := String dquote "".

Definition get_json_string (json key : string) : result string :=
  let pos := find json (quoted key) 0 in
  if pos =? npos then Ok ""
  else
    let pos := find json ":" pos in
    let pos := find json DQ pos in
    let end_ := find json DQ (wrap (pos + 1)) in
    if (pos =? npos) || (end_ =? npos) then Ok ""
    else substr json (wrap (pos + 1)) (wrap (end_ - pos - 1)).

Definition has_key (json key : string) : bool :=
  negb (find json (quoted key) 0 =? npos).

Definition is_array (json : string) : bool :=
  let first := find_first_not_of_ws json 0 in
  negb (first =? npos) &&
  match at_ json first with
  | Some c => code c =? 91
  | None => false
  end.

(** The loop [for (i = 0; i < index; ++i) pos = json.find(",", pos + 1)];
    [None] when a search fails. *)
Fixpoint skip_commas (json : string) (n : nat) (pos : Z) : option Z :=
  match n with
  | O => Some pos
  | S n' =>
      let pos' := find json "," (wrap (pos + 1)) in
      if pos' =? npos then None else skip_commas json n' pos'
  end.

Definition get_nested_value (json key : string) (index : Z) : result string :=
  let pos := find json (quoted key) 0 in
  if pos =? npos then Ok ""
  else
    let pos := find json "[" pos in
    if pos =? npos then Ok ""
    else
      match skip_commas json (Z.to_nat index) pos with
      | None => Ok ""
      | Some pos =>
          let pos := find json DQ pos in
          let end_ := find json DQ (wrap (pos + 1)) in
          if (pos =? npos) || (end_ =? npos) then Ok ""
          else substr json (wrap (pos + 1)) (wrap (end_ - pos - 1))
      end.

End Scan.

(** ** Symbol maps *)

(** The loop [for (const auto& [normalized, fmt] : pair_mapping_)
    reverse_mapping_[fmt] = normalized], over the entries in the order
    the container yields them. *)
Definition build_reverse (entries : list (string * string))
  : gmap string string :=
  foldl (fun acc kv => <[kv.2 := kv.1]> acc) ∅ entries.

(** A handler body wrapped in [try { ... } catch (const std::exception&) {}]. *)
Definition catch_std_exception {A : Type} (body : result (option A))
  : result (option A) :=
  match body with
  | Ok r => Ok r
  | Throw std_invalid_argument | Throw std_out_of_range => Ok None
  end.

(** [parse_message] returns [Ok (Some u)] when it calls
    [notify_price_update(u)], [Ok None] when it returns without, and
    [Throw e] when the exception [e] leaves it. The argument [now] is what
    [system_clock::now()] returns. *)

Module BinanceClient.
Import StdString Scan.

Definition name_ : string := "Binance".
Definition host_ : string := "stream.binance.com".
Definition port_ : string := "9443".
Definition path_ : string :=
  "/ws/btcusdt@bookTicker/ethusdt@bookTicker/solusdt@bookTicker/xrpusdt@bookTicker".

Definition pair_mapping_ : gmap string string :=
  <["XRP/USDT" := "xrpusdt"]> (<["SOL/USDT" := "solusdt"]>
  (<["ETH/USDT" := "ethusdt"]> (<["BTC/USDT" := "btcusdt"]> ∅))).

Definition reverse_mapping_ : gmap string string :=
  build_reverse (map_to_list pair_mapping_).

Definition get_subscribe_message : string := "".

Definition parse_message_body (now : Z) (message : string)
  : result (option PriceUpdate) :=
  if negb (has_key message "s") || negb (has_key message "b")
     || negb (has_key message "a")
  then Ok None
  else
    symbol ← get_json_string message "s";
    let symbol := transform_tolower symbol in
    match reverse_mapping_ !! symbol with
    | None => Ok None
    | Some canon =>
        b ← get_json_string message "b" ≫= stod;
        a ← get_json_string message "a" ≫= stod;
        Ok (Some {| exchange := name_; pair := canon;
                    bid := b; ask := a; timestamp := now |})
    end.

Definition parse_message (now : Z) (message : string)
  : result (option PriceUpdate) :=
  catch_std_exception (parse_message_body now message).

End BinanceClient.

Module KrakenClient.
Import StdString Scan.

Definition name_ : string := "Kraken".
Definition host_ : string := "ws.kraken.com".
Definition port_ : string := "443".
Definition path_ : string := "/".

Definition pair_mapping_ : gmap string string :=
  <["XRP/USDT" := "XRP/USDT"]> (<["SOL/USDT" := "SOL/USDT"]>
  (<["ETH/USDT" := "ETH/USDT"]> (<["BTC/USDT" := "XBT/USDT"]> ∅))).

Definition reverse_mapping_ : gmap string string :=
  build_reverse (map_to_list pair_mapping_).

Definition get_subscribe_message : string := lit
"{
        'event': 'subscribe',
        'pair': ['XBT/USDT', 'ETH/USDT', 'SOL/USDT', 'XRP/USDT'],
        'subscription': {'name': 'ticker'}
    }".

Definition parse_message_body (now : Z) (message : string)
  : result (option PriceUpdate) :=
  if negb (is_array message) then Ok None
  else if find message (lit "'ticker'") 0 =? npos then Ok None
  else
    let last_quote := rfind message DQ npos in
    let second_last := rfind message DQ (wrap (last_quote - 1)) in
    if second_last =? npos then Ok None
    else
      kraken_pair ← substr message (wrap (second_last + 1))
                      (wrap (last_quote - second_last - 1));
      match reverse_mapping_ !! kraken_pair with
      | None => Ok None
      | Some canon =>
          b ← get_nested_value message "b" 0 ≫= stod;
          a ← get_nested_value message "a" 0 ≫= stod;
          Ok (Some {| exchange := name_; pair := canon;
                      bid := b; ask := a; timestamp := now |})
      end.

Definition parse_message (now : Z) (message : string)
  : result (option PriceUpdate) :=
  catch_std_exception (parse_message_body now message).

End KrakenClient.

Module CoinbaseClient.
Import StdString Scan.

Definition name_ : string := "Coinbase".
Definition host_ : string := "ws-feed.exchange.coinbase.com".
Definition port_ : string := "443".
Definition path_ : string := "/".

Definition pair_mapping_ : gmap string string :=
  <["XRP/USDT" := "XRP-USDT"]> (<["SOL/USDT" := "SOL-USDT"]>
  (<["ETH/USDT" := "ETH-USDT"]> (<["BTC/USDT" := "BTC-USDT"]> ∅))).

Definition reverse_mapping_ : gmap string string :=
  build_reverse (map_to_list pair_mapping_).

Definition get_subscribe_message : string := lit
"{
        'type': 'subscribe',
        'product_ids': ['BTC-USDT', 'ETH-USDT', 'SOL-USDT', 'XRP-USDT'],
        'channels': ['ticker']
    }".

Definition parse_message_body (now : Z) (message : string)
  : result (option PriceUpdate) :=
  type ← get_json_string message "type";
  if negb (String.eqb type "ticker") then Ok None
  else if negb (has_key message "product_id")
          || negb (has_key message "best_bid")
          || negb (has_key message "best_ask")
  then Ok None
  else
    product_id ← get_json_string message "product_id";
    match reverse_mapping_ !! product_id with
    | None => Ok None
    | Some canon =>
        b ← get_json_string message "best_bid" ≫= stod;
        a ← get_json_string message "best_ask" ≫= stod;
        Ok (Some {| exchange := name_; pair := canon;
                    bid := b; ask := a; timestamp := now |})
    end.

Definition parse_message (now : Z) (message : string)
  : result (option PriceUpdate) :=
  catch_std_exception (parse_message_body now message).

End CoinbaseClient.

(** The [ostringstream] loop of the Bybit and OKX subscriptions: one
    item per entry of [pair_mapping_], separated by commas. *)
Definition join_args (item : string -> string)
    (entries : list (string * string)) : string :=
  (foldl (fun st kv =>
            (false, st.2 +:+ (if st.1 : bool then "" else ",") +:+ item kv.2))
         (true, "") entries).2.

Module BybitClient.
Import StdString Scan.

Definition name_ : string := "Bybit".
Definition host_ : string := "stream.bybit.com".
Definition port_ : string := "443".
Definition path_ : string := "/v5/public/spot".

Definition pair_mapping_ : gmap string string :=
  <["XRP/USDT" := "XRPUSDT"]> (<["SOL/USDT" := "SOLUSDT"]>
  (<["ETH/USDT" := "ETHUSDT"]> (<["BTC/USDT" := "BTCUSDT"]> ∅))).

Definition reverse_mapping_ : gmap string string :=
  build_reverse (map_to_list pair_mapping_).

Definition get_subscribe_message : string :=
  lit "{'op':'subscribe','args':["
  +:+ join_args (fun bybit_fmt => lit "'tickers." +:+ bybit_fmt +:+ DQ)
        (map_to_list pair_mapping_)
  +:+ "]}".

Definition parse_message_body (now : Z) (message : string)
  : result (option PriceUpdate) :=
  if negb (has_key message "topic") || negb (has_key message "data")
  then Ok None
  else
    topic ← get_json_string message "topic";
    if negb (find topic "tickers." 0 =? 0) then Ok None
    else
      symbol ← get_json_string message "symbol";
      if empty symbol then Ok None
      else
        match reverse_mapping_ !! symbol with
        | None => Ok None
        | Some canon =>
            bid_str ← get_json_string message "bid1Price";
            ask_str ← get_json_string message "ask1Price";
            if empty bid_str || empty ask_str then Ok None
            else
              b ← stod bid_str;
              a ← stod ask_str;
              Ok (Some {| exchange := name_; pair := canon;
                          bid := b; ask := a; timestamp := now |})
        end.

Definition parse_message (now : Z) (message : string)
  : result (option PriceUpdate) :=
  catch_std_exception (parse_message_body now message).

End BybitClient.

Module OKXClient.
Import StdString Scan.

Definition name_ : string := "OKX".
Definition host_ : string := "ws.okx.com".
Definition port_ : string := "8443".
Definition path_ : string := "/ws/v5/public".

Definition pair_mapping_ : gmap string string :=
  <["XRP/USDT" := "XRP-USDT"]> (<["SOL/USDT" := "SOL-USDT"]>
  (<["ETH/USDT" := "ETH-USDT"]> (<["BTC/USDT" := "BTC-USDT"]> ∅))).

Definition reverse_mapping_ : gmap string string :=
  build_reverse (map_to_list pair_mapping_).

Definition get_subscribe_message : string :=
  lit "{'op':'subscribe','args':["
  +:+ join_args
        (fun okx_fmt =>
           lit "{'channel':'tickers','instId':'" +:+ okx_fmt +:+ lit "'}")
        (map_to_list pair_mapping_)
  +:+ "]}".

Definition parse_message_body (now : Z) (message : string)
  : result (option PriceUpdate) :=
  if negb (has_key message "data") then Ok None
  else
    inst_id ← get_json_string message "instId";
    if empty inst_id then Ok None
    else
      match reverse_mapping_ !! inst_id with
      | None => Ok None
      | Some canon =>
          bid_str ← get_json_string message "bidPx";
          ask_str ← get_json_string message "askPx";
          if empty bid_str || empty ask_str then Ok None
          else
            b ← stod bid_str;
            a ← stod ask_str;
            Ok (Some {| exchange := name_; pair := canon;
                        bid := b; ask := a; timestamp := now |})
      end.

Definition parse_message (now : Z) (message : string)
  : result (option PriceUpdate) :=
  catch_std_exception (parse_message_body now message).

End OKXClient.

(** ** The venues behind the [WebSocketClient] interface *)

Inductive venue : Type := Binance | Kraken | Coinbase | Bybit | OKX.

Definition venues : list venue := [Binance; Kraken; Coinbase; Bybit; OKX].

(** What a session needs of its derived class: the constructor arguments
    and the two virtual functions. *)
Class Client : Type := {
  client_name : string;
  client_host : string;
  client_port : string;
  client_path : string;
  subscribe_message : string;
  parse : Z -> string -> result (option PriceUpdate)
}.

Definition client_of (v : venue) : Client :=
  match v with
  | Binance =>
      Build_Client BinanceClient.name_ BinanceClient.host_
        BinanceClient.port_ BinanceClient.path_
        BinanceClient.get_subscribe_message BinanceClient.parse_message
  | Kraken =>
      Build_Client KrakenClient.name_ KrakenClient.host_
        KrakenClient.port_ KrakenClient.path_
        KrakenClient.get_subscribe_message KrakenClient.parse_message
  | Coinbase =>
      Build_Client CoinbaseClient.name_ CoinbaseClient.host_
        CoinbaseClient.port_ CoinbaseClient.path_
        CoinbaseClient.get_subscribe_message CoinbaseClient.parse_message
  | Bybit =>
      Build_Client BybitClient.name_ BybitClient.host_
        BybitClient.port_ BybitClient.path_
        BybitClient.get_subscribe_message BybitClient.parse_message
  | OKX =>
      Build_Client OKXClient.name_ OKXClient.host_
        OKXClient.port_ OKXClient.path_
        OKXClient.get_subscribe_message OKXClient.parse_message
  end.

Definition pair_mapping (v : venue) : gmap string string :=
  match v with
  | Binance => BinanceClient.pair_mapping_
  | Kraken => KrakenClient.pair_mapping_
  | Coinbase => CoinbaseClient.pair_mapping_
  | Bybit => BybitClient.pair_mapping_
  | OKX => OKXClient.pair_mapping_
  end.

Definition reverse_mapping (v : venue) : gmap string string :=
  match v with
  | Binance => BinanceClient.reverse_mapping_
  | Kraken => KrakenClient.reverse_mapping_
  | Coinbase => CoinbaseClient.reverse_mapping_
  | Bybit => BybitClient.reverse_mapping_
  | OKX => OKXClient.reverse_mapping_
  end.

Definition canonical_pairs : list string :=
  ["BTC/USDT"; "ETH/USDT"; "SOL/USDT"; "XRP/USDT"].

(** ** WebSocketClient (websocket_client.hpp, websocket_client.cpp)

    Every [async_*] call appends an operation to [pending]; the runtime
    later completes one of the pending operations, which runs the lambda
    given to the call. [issued] records every operation ever started and
    [notified] every update handed to [notify_price_update]. *)

Module WebSocketClient.

Definition MAX_RECONNECT_ATTEMPTS : Z := 10.
Definition RECONNECT_DELAY_SECONDS : Z := 5.

Inductive operation : Type :=
| AsyncResolve (host port : string)
| AsyncConnect
| AsyncSslHandshake
| AsyncWsHandshake (host path : string)
| AsyncWrite (msg : string)
| AsyncRead
| AsyncWait (seconds : Z).

#[global] Instance operation_eq_dec : EqDecision operation.
Proof. solve_decision. Defined.

Record session : Type := {
  running_ : bool;
  reconnect_attempts_ : Z;
  pending : list operation;
  issued : list operation;
  notified : list PriceUpdate
}.

(** The state the constructor leaves. *)
Definition constructed : session :=
  {| running_ := false; reconnect_attempts_ := 0;
     pending := []; issued := []; notified := [] |}.

Definition set_running (b : bool) (s : session) : session :=
  {| running_ := b; reconnect_attempts_ := reconnect_attempts_ s;
     pending := pending s; issued := issued s; notified := notified s |}.

Definition set_attempts (n : Z) (s : session) : session :=
  {| running_ := running_ s; reconnect_attempts_ := n;
     pending := pending s; issued := issued s; notified := notified s |}.

(** Starting an asynchronous operation. *)
Definition async (op : operation) (s : session) : session :=
  {| running_ := running_ s; reconnect_attempts_ := reconnect_attempts_ s;
     pending := pending s ++ [op]; issued := issued s ++ [op];
     notified := notified s |}.

Definition notify_price_update (u : PriceUpdate) (s : session) : session :=
  {| running_ := running_ s; reconnect_attempts_ := reconnect_attempts_ s;
     pending := pending s; issued := issued s;
     notified := notified s ++ [u] |}.

(** Removes the first pending occurrence of [op]; [None] when there is
    none to complete. *)
Fixpoint take_pending (op : operation) (l : list operation)
  : option (list operation) :=
  match l with
  | [] => None
  | o :: r =>
      if decide (o = op) then Some r
      else option_map (cons o) (take_pending op r)
  end.

Section Handlers.
Context (c : Client).

Definition resolve (s : session) : session :=
  async (AsyncResolve client_host client_port) s.

Definition start (s : session) : session :=
  resolve (set_attempts 0 (set_running true s)).

Definition stop (s : session) : session := set_running false s.

Definition reconnect (s : session) : session :=
  if negb (running_ s) || (MAX_RECONNECT_ATTEMPTS <=? reconnect_attempts_ s)
  then s
  else async (AsyncWait RECONNECT_DELAY_SECONDS)
         (set_attempts (reconnect_attempts_ s + 1) s).

Definition on_wait (s : session) : session :=
  if running_ s then resolve s else s.

Definition connect (s : session) : session := async AsyncConnect s.

Definition on_resolve (ec : bool) (s : session) : session :=
  if ec then reconnect s else connect s.

(** [sni_ok] is the result of [SSL_set_tlsext_host_name]. *)
Definition ssl_handshake (sni_ok : bool) (s : session) : session :=
  if negb sni_ok then reconnect s else async AsyncSslHandshake s.

Definition on_connect (ec sni_ok : bool) (s : session) : session :=
  if ec then reconnect s else ssl_handshake sni_ok s.

Definition ws_handshake (s : session) : session :=
  async (AsyncWsHandshake client_host client_path) s.

Definition on_ssl_handshake (ec : bool) (s : session) : session :=
  if ec then reconnect s else ws_handshake s.

Definition read (s : session) : session := async AsyncRead s.

Definition subscribe (s : session) : session :=
  let subscribe_msg := subscribe_message in
  if StdString.empty subscribe_msg then read s
  else async (AsyncWrite subscribe_msg) s.

Definition on_ws_handshake (ec : bool) (s : session) : session :=
  if ec then reconnect s else subscribe (set_attempts 0 s).

Definition on_write (ec : bool) (s : session) : session :=
  if ec then reconnect s else read s.

Definition on_read (ec : bool) (message : string) (now : Z) (s : session)
  : session :=
  if ec then reconnect s
  else
    let s1 :=
      match parse now message with
      | Ok (Some u) => notify_price_update u s
      | Ok None => s
      | Throw _ => s
      end in
    if running_ s1 then read s1 else s1.

(** How the runtime completes an operation: the error code ([true] for
    an error) and what else the handler receives. *)
Inductive completion : Type :=
| ResolveDone (ec : bool)
| ConnectDone (ec sni_ok : bool)
| SslHandshakeDone (ec : bool)
| WsHandshakeDone (ec : bool)
| WriteDone (ec : bool)
| ReadDone (ec : bool) (message : string) (now : Z)
| WaitDone.

(** Whether [k] can be the completion of [op]. *)
Definition completes (k : completion) (op : operation) : bool :=
  match k, op with
  | ResolveDone _, AsyncResolve _ _
  | ConnectDone _ _, AsyncConnect
  | SslHandshakeDone _, AsyncSslHandshake
  | WsHandshakeDone _, AsyncWsHandshake _ _
  | WriteDone _, AsyncWrite _
  | ReadDone _ _ _, AsyncRead
  | WaitDone, AsyncWait _ => true
  | _, _ => false
  end.

Definition handler (k : completion) (s : session) : session :=
  match k with
  | ResolveDone ec => on_resolve ec s
  | ConnectDone ec sni_ok => on_connect ec sni_ok s
  | SslHandshakeDone ec => on_ssl_handshake ec s
  | WsHandshakeDone ec => on_ws_handshake ec s
  | WriteDone ec => on_write ec s
  | ReadDone ec message now => on_read ec message now s
  | WaitDone => on_wait s
  end.

Inductive event : Type :=
| Start
| Stop
| Complete (op : operation) (k : completion).

(** One step of the session: a call of [start()] or [stop()], or the
    completion of an operation that is pending. *)
Definition step (ev : event) (s : session) : option session :=
  match ev with
  | Start => Some (start s)
  | Stop => Some (stop s)
  | Complete op k =>
      if completes k op then
        match take_pending op (pending s) with
        | Some rest =>
            Some (handler k
                    {| running_ := running_ s;
                       reconnect_attempts_ := reconnect_attempts_ s;
                       pending := rest; issued := issued s;
                       notified := notified s |})
        | None => None
        end
      else None
  end.

Fixpoint run (evs : list event) (s : session) : option session :=
  match evs with
  | [] => Some s
  | ev :: r => match step ev s with
               | Some s' => run r s'
               | None => None
               end
  end.

Inductive reachable : session -> Prop :=
| reachable_constructed : reachable constructed
| reachable_step ev s s' :
    reachable s -> step ev s = Some s' -> reachable s'.

(** An environment tells how the oldest pending operation completes,
    given the state of the session. [drive] lets it complete operations,
    oldest first, until none is pending or the fuel is used up. *)
Definition environment : Type := session -> operation -> completion.

Fixpoint drive (env : environment) (fuel : nat) (s : session) : session :=
  match fuel with
  | O => s
  | S f =>
      match pending s with
      | [] => s
      | op :: _ =>
          match step (Complete op (env s op)) s with
          | Some s' => drive env f s'
          | None => s
          end
      end
  end.

End Handlers.

(** The environment in which every connection attempt fails, at the
    resolve when [at_resolve] says so for the attempt, at the connect
    otherwise; timers expire normally. *)
Definition always_failing (at_resolve : Z -> bool) : environment :=
  fun s op =>
    match op with
    | AsyncResolve _ _ => ResolveDone (at_resolve (reconnect_attempts_ s))
    | AsyncConnect => ConnectDone true true
    | AsyncSslHandshake => SslHandshakeDone true
    | AsyncWsHandshake _ _ => WsHandshakeDone true
    | AsyncWrite _ => WriteDone true
    | AsyncRead => ReadDone true "" 0
    | AsyncWait _ => WaitDone
    end.

End WebSocketClient.

(** ** PriceFeedServer (price_feed_server.hpp, price_feed_server.cpp)

    A [shared_ptr<tcp::socket>] is the number of the socket it points
    to; [accept()] makes a new socket for every connection. The peers'
    side of the connections is [wire]: the bytes each has been sent. *)

Module PriceFeedServer.

Definition socket : Type := nat.

Record server : Type := {
  clients_ : list socket;
  next_socket : socket
}.

Definition wire : Type := gmap socket string.

Definition received (w : wire) (c : socket) : string := default "" (w !! c).

(** What [asio::write(socket, buffer, ec)] does: it transfers the whole
    buffer and leaves [ec] clear, or stops with an error after fewer
    bytes. *)
Inductive write_outcome : Type :=
| WriteComplete
| WriteError (transferred : nat).

Definition network : Type := socket -> write_outcome.

(** [asio::write]: the new wire and whether [ec] is set. *)
Definition asio_write (net : network) (c : socket) (buffer : string) (w : wire)
  : wire * bool :=
  match net c with
  | WriteComplete => (<[c := received w c +:+ buffer]> w, false)
  | WriteError n =>
      (<[c := received w c +:+ String.substring 0 n buffer]> w, true)
  end.

(** [std::remove_if] with the writing lambda as predicate: the elements
    kept, in order, and the wire after the writes. *)
Fixpoint remove_if_write (net : network) (json_msg : string)
    (cs : list socket) (w : wire) : list socket * wire :=
  match cs with
  | [] => ([], w)
  | c :: r =>
      let '(w1, ec) := asio_write net c json_msg w in
      let '(kept, w2) := remove_if_write net json_msg r w1 in
      (if ec then kept else c :: kept, w2)
  end.

Definition broadcast_price (net : network) (update : PriceUpdate)
    (st : server * wire) : server * wire :=
  let json_msg := to_json update +:+ String LF "" in
  let '(kept, w) := remove_if_write net json_msg (clients_ st.1) st.2 in
  ({| clients_ := kept; next_socket := next_socket st.1 |}, w).

(** A successful [async_accept] followed by [handle_accept(socket)]. *)
Definition handle_accept (st : server * wire) : server * wire :=
  ({| clients_ := clients_ st.1 ++ [next_socket st.1];
      next_socket := S (next_socket st.1) |}, st.2).

Definition listening : server * wire :=
  ({| clients_ := []; next_socket := O |}, ∅).

Inductive action : Type :=
| Accept
| Broadcast (net : network) (update : PriceUpdate).

Definition act (a : action) (st : server * wire) : server * wire :=
  match a with
  | Accept => handle_accept st
  | Broadcast net update => broadcast_price net update st
  end.

Definition acts (l : list action) (st : server * wire) : server * wire :=
  foldl (fun st a => act a st) st l.

End PriceFeedServer.

(** ** JSON texts (RFC 8259)

    A recogniser for the JSON grammar over bytes; each function returns
    the text left after what it has recognised. Bytes of 128 and above
    are taken as parts of multi-byte characters and allowed inside
    strings. [fuel] bounds the nesting and the number of members. *)

Module Json.

Fixpoint skip_ws (s : string) : string :=
  match s with
  | String c r =>
      if (code c =? 32) || (code c =? 9) || (code c =? 10) || (code c =? 13)
      then skip_ws r else s
  | EmptyString => s
  end.

Definition is_hex (c : ascii) : bool :=
  match hex_val c with Some _ => true | None => false end.

(** The characters that may follow a backslash, [u] apart. *)
Definition is_escape (c : ascii) : bool :=
  (code c =? 34) || (code c =? 92) || (code c =? 47) || (code c =? 98)
  || (code c =? 102) || (code c =? 110) || (code c =? 114) || (code c =? 116).

(** A string after its opening quote, up to and including the closing
    quote. *)
Fixpoint string_body (s : string) : option string :=
  match s with
  | EmptyString => None
  | String c r =>
      if code c =? 34 then Some r
      else if code c =? 92 then
        match r with
        | String e r1 =>
            if is_escape e then string_body r1
            else if code e =? 117 then
              match r1 with
              | String h1 (String h2 (String h3 (String h4 r2))) =>
                  if is_hex h1 && is_hex h2 && is_hex h3 && is_hex h4
                  then string_body r2 else None
              | _ => None
              end
            else None
        | EmptyString => None
        end
      else if code c <? 32 then None
      else string_body r
  end.

Fixpoint skip_digits (s : string) : string :=
  match s with
  | String c r => if is_digit c then skip_digits r else s
  | EmptyString => s
  end.

(** One digit at least, then any more. *)
Definition digits1 (s : string) : option string :=
  match s with
  | String c r => if is_digit c then Some (skip_digits r) else None
  | EmptyString => None
  end.

Definition exponent_part (s : string) : option string :=
  match s with
  | String c r =>
      if (code c =? 101) || (code c =? 69) then
        match r with
        | String g r1 =>
            if (code g =? 43) || (code g =? 45) then digits1 r1 else digits1 r
        | EmptyString => None
        end
      else Some s
  | EmptyString => Some s
  end.

Definition fraction_part (s : string) : option string :=
  match s with
  | String c r => if code c =? 46 then digits1 r else Some s
  | EmptyString => Some s
  end.

Definition integer_part (s : string) : option string :=
  match s with
  | String c r =>
      if code c =? 48 then Some r
      else if is_digit c then Some (skip_digits r)
      else None
  | EmptyString => None
  end.

Definition number (s : string) : option string :=
  let s1 := match s with
            | String c r => if code c =? 45 then r else s
            | EmptyString => s
            end in
  match integer_part s1 with
  | Some r => match fraction_part r with
              | Some r1 => exponent_part r1
              | None => None
              end
  | None => None
  end.

(** The rest of [s] after the literal name [w], when [s] starts with it. *)
Fixpoint literal (w s : string) : option string :=
  match w, s with
  | EmptyString, _ => Some s
  | String a w', String c r => if Ascii.eqb a c then literal w' r else None
  | String _ _, EmptyString => None
  end.

Fixpoint value (fuel : nat) (s : string) : option string :=
  match fuel with
  | O => None
  | S f =>
      match s with
      | String c r =>
          if code c =? 123 then
            match skip_ws r with
            | String c1 r1 =>
                if code c1 =? 125 then Some r1 else members f (skip_ws r)
            | EmptyString => None
            end
          else if code c =? 91 then
            match skip_ws r with
            | String c1 r1 =>
                if code c1 =? 93 then Some r1 else elements f (skip_ws r)
            | EmptyString => None
            end
          else if code c =? 34 then string_body r
          else if code c =? 116 then literal "true" s
          else if code c =? 102 then literal "false" s
          else if code c =? 110 then literal "null" s
          else number s
      | EmptyString => None
      end
  end
with members (fuel : nat) (s : string) : option string :=
  match fuel with
  | O => None
  | S f =>
      match s with
      | String c r =>
          if code c =? 34 then
            match string_body r with
            | Some r1 =>
                match skip_ws r1 with
                | String c2 r2 =>
                    if code c2 =? 58 then
                      match value f (skip_ws r2) with
                      | Some r3 =>
                          match skip_ws r3 with
                          | String c4 r4 =>
                              if code c4 =? 44 then members f (skip_ws r4)
                              else if code c4 =? 125 then Some r4
                              else None
                          | EmptyString => None
                          end
                      | None => None
                      end
                    else None
                | EmptyString => None
                end
            | None => None
            end
          else None
      | EmptyString => None
      end
  end
with elements (fuel : nat) (s : string) : option string :=
  match fuel with
  | O => None
  | S f =>
      match value f s with
      | Some r =>
          match skip_ws r with
          | String c1 r1 =>
              if code c1 =? 44 then elements f (skip_ws r1)
              else if code c1 =? 93 then Some r1
              else None
          | EmptyString => None
          end
      | None => None
      end
  end.

(** [s] is one JSON value between optional white space. *)
Definition document (fuel : nat) (s : string) : bool :=
  match value fuel (skip_ws s) with
  | Some r => match skip_ws r with
              | EmptyString => true
              | String _ _ => false
              end
  | None => false
  end.

(** [s] is a JSON text whose value is an object. *)
Definition object_document (fuel : nat) (s : string) : bool :=
  match skip_ws s with
  | String c _ => (code c =? 123) && document fuel s
  | EmptyString => false
  end.


Definition well_formed_object (s : string) : Prop :=
  exists fuel, object_document fuel s = true.

End Json.

(** ** Vocabulary of the properties

    Notions the statements below are written with: occurrences of a
    token in a frame, the shape of the numbers [to_json] prints, the
    classification of session events, and the frames and records used
    as examples. *)

Import StdString Scan WebSocketClient PriceFeedServer.


Definition occurs (pat s : string) : Prop :=
  ∃ pre post, s = pre +:+ pat +:+ post.



Definition truncated_binance_frame : string :=
  lit "{'s':'BTCUSDT','b':'27000.10','a':'27000.20'".

Definition kraken_tick_frame : string := lit
  "[340,{'a':['1902.12',1,'1.234'],'b':['1901.87',2,'2.345'],'c':['1902.00','0.01']},'ticker','ETH/USDT']".

(** Whether the double [d] is within half a unit in the last place of
    [p / q]. *)
Definition nearest_to (p q : Z) (d : double) : bool :=
  match d with
  | DFinite false m e =>
      let '(n, k) := scale2 p q e in
      (2 * Z.abs (Zpos m * k - n) <=? k) && (2 ^ 52 <=? Zpos m) && (Zpos m <? 2 ^ 53)
  | _ => false
  end.


Fixpoint all_chars (P : ascii → bool) (s : string) : bool :=
  match s with
  | EmptyString => true
  | String c r => P c && all_chars P r
  end.

(** A decimal numeral without sign or leading zeros. *)
Definition decimal_numeral (s : string) : Prop :=
  s = "0" ∨
  ∃ d ds, s = String d ds ∧ 49 ≤ code d ≤ 57 ∧ all_chars is_digit ds = true.

(** Fixed notation: an optional minus sign, a decimal numeral, a point
    and exactly [k] digits. *)
Definition fixed_notation (k : nat) (s : string) : Prop :=
  ∃ sg int frac,
    s = sg +:+ int +:+ String "." frac ∧ (sg = "" ∨ sg = "-") ∧
    decimal_numeral int ∧ all_chars is_digit frac = true ∧
    String.length frac = k.

(** A decimal integer: an optional minus sign and a decimal numeral. *)
Definition integer_notation (s : string) : Prop :=
  ∃ sg int, s = sg +:+ int ∧ (sg = "" ∨ sg = "-") ∧ decimal_numeral int.




(** A character that may stand unescaped inside a JSON string. *)
Definition json_plain (c : ascii) : bool :=
  negb (code c =? 34) && negb (code c =? 92) && (32 <=? code c).

(** A character that ends a JSON number. *)
Definition ends_number (c : ascii) : bool :=
  negb (is_digit c) && negb (code c =? 46) && negb (code c =? 101)
  && negb (code c =? 69).


(** The text of [to_json] around its five values. *)
Definition json_template (ex pr b a t : string) : string :=
  lit "{'exchange':'" +:+ ex +:+ lit "','pair':'" +:+ pr
  +:+ lit "','bid':" +:+ b +:+ lit ",'ask':" +:+ a
  +:+ lit ",'timestamp':" +:+ t +:+ "}".

(** The text of an object member up to its value, and of a string value. *)
Definition member_text (key rest : string) : string :=
  String dquote (key +:+ String dquote (String ":" rest)).

Definition string_text (v rest : string) : string :=
  String dquote (v +:+ String dquote rest).

Definition number_notation (s : string) : Prop :=
  integer_notation s ∨ ∃ k, fixed_notation (S k) s.





(** Whether a completion sends its handler to [reconnect()]. *)
Definition is_failure (k : completion) : bool :=
  match k with
  | ResolveDone ec | SslHandshakeDone ec | WsHandshakeDone ec
  | WriteDone ec | ReadDone ec _ _ => ec
  | ConnectDone ec sni_ok => ec || negb sni_ok
  | WaitDone => false
  end.

Definition fails (ev : event) : bool :=
  match ev with
  | Complete _ k => is_failure k
  | _ => false
  end.

Definition resets (ev : event) : bool :=
  match ev with
  | Start | Complete _ (WsHandshakeDone false) => true
  | _ => false
  end.

Definition stops (ev : event) : bool :=
  match ev with
  | Stop => true
  | _ => false
  end.


(** The operations of one connection attempt that fails at the resolve
    or at the connect. *)
Definition attempt_ops (c : Client) (at_resolve : bool) : list operation :=
  AsyncResolve client_host client_port
  :: (if at_resolve then [] else [AsyncConnect]).

(** The operations from the attempt made with the counter at [k] on,
    when [n] more reconnections follow: each is a wait of
    [RECONNECT_DELAY_SECONDS] and then an attempt. *)
Fixpoint failing_trace_from (c : Client) (at_resolve : Z → bool) (k : Z)
    (n : nat) : list operation :=
  attempt_ops c (at_resolve k) ++
  match n with
  | O => []
  | S n' => AsyncWait RECONNECT_DELAY_SECONDS
            :: failing_trace_from c at_resolve (k + 1) n'
  end.

Definition failing_trace (c : Client) (at_resolve : Z → bool)
  : list operation :=
  failing_trace_from c at_resolve 0 10.

Definition is_wait (op : operation) : bool :=
  match op with AsyncWait _ => true | _ => false end.

Definition is_resolve (op : operation) : bool :=
  match op with AsyncResolve _ _ => true | _ => false end.


(** What a write puts on the wire. *)
Definition delivered (o : write_outcome) (buffer : string) : string :=
  match o with
  | WriteComplete => buffer
  | WriteError n => String.substring 0 n buffer
  end.

Definition write_ok (o : write_outcome) : bool :=
  match o with
  | WriteComplete => true
  | WriteError _ => false
  end.

(** The sockets of a server are distinct and older than the next one. *)
Definition well_formed_server (srv : server) : Prop :=
  NoDup (clients_ srv) ∧ ∀ x, x ∈ clients_ srv → (x < next_socket srv)%nat.

Definition nonfinite_update : PriceUpdate :=
  {| exchange := "Binance"; pair := "BTC/USDT";
     bid := DInf false; ask := DNaN false; timestamp := 0 |}.

Definition two_line_update : PriceUpdate :=
  {| exchange := String "A" (String LF "B"); pair := "BTC/USDT";
     bid := DZero false; ask := DZero false; timestamp := 0 |}.

Definition quote_in_name_update : PriceUpdate :=
  {| exchange := String "A" (String dquote "B"); pair := "BTC/USDT";
     bid := DZero false; ask := DZero false; timestamp := 0 |}.

Definition plain_update : PriceUpdate :=
  {| exchange := "Kraken"; pair := "ETH/USDT";
     bid := DFinite false 8364512718073364 (-42);
     ask := DFinite false 8365612229701140 (-42);
     timestamp := 1700000000123456789 |}.

Definition kraken_heartbeat_frame : string := lit "{'event':'heartbeat'}".

(** A Kraken session whose WebSocket handshake is about to complete
    after three failed attempts. *)
Definition kraken_handshaking : session :=
  {| running_ := true; reconnect_attempts_ := 3; pending := [];
     issued := []; notified := [] |}.

(** A network on which the writes to socket 0 fail after three bytes. *)
Definition failing_first : network :=
  fun x => if (x =? 0)%nat then WriteError 3 else WriteComplete.

(** ** Vocabulary of the further properties

    The scanners' character classes, the body of a parser inside its
    [try], what a session hands to its callback, and what the feed
    server has sent to a consumer. *)

(** Characters other than the double quote, and other than the colon. *)
Definition not_dquote (c : ascii) : bool := negb (code c =? 34).

(** The characters [is_array] skips. *)
Definition is_blank (c : ascii) : bool :=
  (code c =? 32) || (code c =? 9) || (code c =? 10) || (code c =? 13).



(** The venue symbol as the frame spells it: Binance frames carry it in
    upper case and the parser lowers it before the lookup. *)
Definition as_looked_up (v : venue) (sym : string) : string :=
  match v with
  | Binance => transform_tolower sym
  | _ => sym
  end.

(** The update a completion makes the session hand to its callback. *)
Definition emission (c : Client) (ev : event) : list PriceUpdate :=
  match ev with
  | Complete _ (ReadDone false message now) =>
      match parse now message with
      | Ok (Some u) => [u]
      | _ => []
      end
  | _ => []
  end.

Definition is_start (ev : event) : bool :=
  match ev with Start => true | _ => false end.

(** Completions that leave a stopped session idle: errors, and timers. *)
Definition winds_down (ev : event) : bool :=
  match ev with
  | Complete _ WaitDone => true
  | Complete _ k => is_failure k
  | _ => false
  end.

(** The lines a sequence of actions broadcasts, in order. *)
Fixpoint lines (l : list action) : string :=
  match l with
  | [] => ""
  | Accept :: r => lines r
  | Broadcast _ update :: r => to_json update +:+ String LF "" +:+ lines r
  end.

(** Whether every write to [x] in the broadcasts of [l] completes. *)
Fixpoint writes_complete (x : socket) (l : list action) : bool :=
  match l with
  | [] => true
  | Accept :: r => writes_complete x r
  | Broadcast net _ :: r => write_ok (net x) && writes_complete x r
  end.

(** The wire holds bytes only for sockets that were handed out. *)
Definition wire_bounded (st : server * wire) : Prop :=
  ∀ x, (next_socket st.1 ≤ x)%nat → received st.2 x = "".


(** A running Kraken session that waits for its next frame. *)
Definition kraken_reading : session :=
  {| running_ := true; reconnect_attempts_ := 0; pending := [AsyncRead];
     issued := []; notified := [] |}.




(** * Properties *)


(** * Symbol maps *)

Section BuildReverse.

Lemma build_reverse_snoc (l : list (string * string)) (kv : string * string) :
  build_reverse (l ++ [kv]) = <[kv.2 := kv.1]> (build_reverse l).
Proof. unfold build_reverse. by rewrite foldl_app. Qed.

(** An entry of the reverse map comes from an entry of the forward one. *)
Lemma build_reverse_lookup_Some (l : list (string * string)) (n c : string) :
  build_reverse l !! n = Some c → (c, n) ∈ l.
Proof.
  induction l as [|kv l IH] using rev_ind.
  - unfold build_reverse; simpl. by rewrite lookup_empty.
  - rewrite build_reverse_snoc, lookup_insert_Some.
    intros [[<- <-]|[_ H]]; rewrite elem_of_app, list_elem_of_singleton.
    + right. by destruct kv.
    + left. by apply IH.
Qed.

(** When no venue symbol is used twice, the reverse map inverts every
    entry, whatever the order the entries come in. *)
Lemma build_reverse_lookup (l : list (string * string)) (n c : string) :
  NoDup l.*2 → (c, n) ∈ l → build_reverse l !! n = Some c.
Proof.
  induction l as [|kv l IH] using rev_ind; intros Hnd Hin.
  - by apply elem_of_nil in Hin.
  - rewrite fmap_app, NoDup_app in Hnd. destruct Hnd as (Hnd & Hfresh & _).
    rewrite build_reverse_snoc.
    apply elem_of_app in Hin as [Hin|Hin].
    + rewrite lookup_insert_ne; [by apply IH|].
      intros Heq. apply (Hfresh n).
      * apply list_elem_of_fmap. by exists (c, n).
      * simpl. rewrite <- Heq. apply list_elem_of_singleton. done.
    + apply list_elem_of_singleton in Hin as <-. simpl. apply lookup_insert_eq.
Qed.

Lemma build_reverse_order (l1 l2 : list (string * string)) :
  NoDup l1.*2 → l1 ≡ₚ l2 → build_reverse l1 = build_reverse l2.
Proof.
  intros Hnd Hp. apply map_eq. intros n.
  assert (Hnd2 : NoDup l2.*2) by (by rewrite <- Hp).
  destruct (build_reverse l1 !! n) as [c|] eqn:H1.
  - symmetry. apply build_reverse_lookup; [done|].
    rewrite <- Hp. by apply build_reverse_lookup_Some.
  - destruct (build_reverse l2 !! n) as [c|] eqn:H2; [|done].
    apply build_reverse_lookup_Some in H2. rewrite <- Hp in H2.
    apply (build_reverse_lookup _ _ _ Hnd) in H2. congruence.
Qed.

End BuildReverse.

Lemma pair_mapping_lookup (v : venue) (c n : string) :
  pair_mapping v !! c = Some n → c ∈ canonical_pairs.
Proof.
  unfold canonical_pairs.
  destruct v; unfold pair_mapping, BinanceClient.pair_mapping_,
    KrakenClient.pair_mapping_, CoinbaseClient.pair_mapping_,
    BybitClient.pair_mapping_, OKXClient.pair_mapping_;
  rewrite !lookup_insert_Some, lookup_empty;
  intros [[<- _]|[_ [[<- _]|[_ [[<- _]|[_ [[<- _]|[_ ?]]]]]]]]; try done;
  repeat constructor.
Qed.

Lemma reverse_mapping_unfold (v : venue) :
  reverse_mapping v = build_reverse (map_to_list (pair_mapping v)).
Proof. by destruct v. Qed.

Lemma pair_mapping_values_distinct (v : venue) :
  NoDup (map_to_list (pair_mapping v)).*2.
Proof.
  destruct v; vm_compute; repeat constructor;
    rewrite ?not_elem_of_cons; split_and?; try discriminate;
    apply not_elem_of_nil.
Qed.



Lemma reverse_mapping_canonical (v : venue) (n c : string) :
  reverse_mapping v !! n = Some c → c ∈ canonical_pairs.
Proof.
  rewrite reverse_mapping_unfold. intros H.
  apply build_reverse_lookup_Some, elem_of_map_to_list in H.
  by eapply pair_mapping_lookup.
Qed.

Ltac parse_cases :=
  unfold catch_std_exception, mbind, result_bind in *;
  repeat (case_match; try congruence);
  repeat first
    [ progress subst
    | match goal with
      | H : Ok _ = Ok _ |- _ => injection H as H
      | H : Some _ = Some _ |- _ => injection H as H
      end ].

(** C8. Whatever the frame, an update a venue's parser emits carries the
    venue's fixed name as [exchange] and one of the four canonical pairs
    as [pair]. *)
Theorem emitted_update_is_canonical (v : venue) (now : Z) (frame : string)
    (u : PriceUpdate) :
  @parse (client_of v) now frame = Ok (Some u) →
  exchange u = @client_name (client_of v) ∧ pair u ∈ canonical_pairs.
Proof.
  destruct v; cbn [parse client_of client_name];
    [unfold BinanceClient.parse_message, BinanceClient.parse_message_body
    |unfold KrakenClient.parse_message, KrakenClient.parse_message_body
    |unfold CoinbaseClient.parse_message, CoinbaseClient.parse_message_body
    |unfold BybitClient.parse_message, BybitClient.parse_message_body
    |unfold OKXClient.parse_message, OKXClient.parse_message_body];
    intros H; parse_cases.
  all: split; [reflexivity|]; cbn [pair].
  - by eapply (reverse_mapping_canonical Binance).
  - by eapply (reverse_mapping_canonical Kraken).
  - by eapply (reverse_mapping_canonical Coinbase).
  - by eapply (reverse_mapping_canonical Bybit).
  - by eapply (reverse_mapping_canonical OKX).
Qed.


Lemma emitted_update_is_canonical_witness :
  @parse (client_of Kraken) 1700000000123456789 kraken_tick_frame
  = Ok (Some plain_update) ∧
  exchange plain_update = @client_name (client_of Kraken) ∧
  pair plain_update ∈ canonical_pairs.
Proof.
  assert (@parse (client_of Kraken) 1700000000123456789 kraken_tick_frame
          = Ok (Some plain_update)) as H by (vm_compute; reflexivity).
  split; [exact H|].
  exact (emitted_update_is_canonical Kraken _ _ _ H).
Defined.

Lemma prefix_split (pat s : string) :
  String.prefix pat s = true → ∃ post, s = pat +:+ post.
Proof.
  revert pat. induction s as [|b s IH]; intros [|a pat]; simpl; try done.
  - by exists "".
  - by exists (String b s).
  - destruct (ascii_dec a b) as [->|]; [|done].
    intros H. destruct (IH _ H) as [post ->]. by exists post.
Qed.

Lemma prefix_append (pat post : string) : String.prefix pat (pat +:+ post) = true.
Proof.
  induction pat as [|a pat IH]; simpl; [by destruct post|].
  by destruct (ascii_dec a a).
Qed.

Lemma first_occurrence_occurs (pat s : string) (i : nat) :
  first_occurrence pat s = Some i → occurs pat s.
Proof.
  revert i. induction s as [|b s IH]; intros i; cbn [first_occurrence].
  - destruct (String.prefix pat "") eqn:Hp; [|done].
    intros _. destruct (prefix_split _ _ Hp) as [post ->]. by exists "", post.
  - destruct (String.prefix pat (String b s)) eqn:Hp.
    + intros _. destruct (prefix_split _ _ Hp) as [post Heq]. exists "", post. done.
    + destruct (first_occurrence pat s) as [j|]; [|done].
      intros _. destruct (IH j eq_refl) as (pre & post & ->).
      exists (String b pre), post. reflexivity.
Qed.





Lemma code_inj (a b : ascii) : code a = code b → a = b.
Proof.
  unfold code. intros H%N2Z.inj.
  rewrite <- (ascii_N_embedding a), <- (ascii_N_embedding b). by f_equal.
Qed.



Lemma stod_empty : stod "" = Throw std_invalid_argument.
Proof. reflexivity. Qed.











Lemma occurs_first_occurrence (pat s : string) :
  occurs pat s → is_Some (first_occurrence pat s).
Proof.
  intros (pre & post & ->). induction pre as [|b pre IH].
  - destruct pat as [|a pat]; [by destruct post|].
    change ("" +:+ String a pat +:+ post) with (String a (pat +:+ post)).
    cbn [first_occurrence].
    change (String a (pat +:+ post)) with (String a pat +:+ post).
    by rewrite prefix_append.
  - change (String b pre +:+ pat +:+ post)
      with (String b (pre +:+ pat +:+ post)).
    cbn [first_occurrence].
    destruct (String.prefix pat _); [done|].
    destruct IH as [j ->]. done.
Qed.





(** C7. On the ticker frame of the specification the Kraken parser
    emits one update: pair ETH/USDT, bid the double nearest to 1901.87
    and ask the double nearest to 1902.12, which [to_json] prints back
    as 1901.87000000 and 1902.12000000. *)
Theorem kraken_tick_scenario (now : Z) :
  KrakenClient.parse_message now kraken_tick_frame
  = Ok (Some {| exchange := "Kraken"; pair := "ETH/USDT";
                bid := DFinite false 8364512718073364 (-42);
                ask := DFinite false 8365612229701140 (-42);
                timestamp := now |}) ∧
  nearest_to 190187 100 (DFinite false 8364512718073364 (-42)) = true ∧
  nearest_to 190212 100 (DFinite false 8365612229701140 (-42)) = true ∧
  put_fixed 8 (DFinite false 8364512718073364 (-42)) = "1901.87000000" ∧
  put_fixed 8 (DFinite false 8365612229701140 (-42)) = "1902.12000000".
Proof. split_and!; vm_compute; reflexivity. Qed.

Lemma append_cons (x : ascii) (a b : string) :
  String x a +:+ b = String x (a +:+ b).
Proof. reflexivity. Qed.

Lemma append_nil_l (b : string) : "" +:+ b = b.
Proof. reflexivity. Qed.

Lemma append_assoc (a b c : string) : (a +:+ b) +:+ c = a +:+ b +:+ c.
Proof.
  induction a as [|x a IH]; [done|]. rewrite !append_cons. by f_equal.
Qed.

Lemma append_nil_r (a : string) : a +:+ "" = a.
Proof.
  induction a as [|x a IH]; [done|]. rewrite append_cons. by f_equal.
Qed.

Lemma length_append (a b : string) :
  String.length (a +:+ b) = (String.length a + String.length b)%nat.
Proof.
  induction a as [|x a IH]; [done|].
  rewrite append_cons. simpl. by f_equal.
Qed.

Lemma all_chars_append (P : ascii → bool) (a b : string) :
  all_chars P (a +:+ b) = all_chars P a && all_chars P b.
Proof.
  induction a as [|x a IH]; [done|].
  rewrite append_cons. simpl. by rewrite IH, andb_assoc.
Qed.

Lemma code_digit_char (d : Z) : 0 ≤ d < 10 → code (digit_char d) = 48 + d.
Proof.
  intros H. unfold code, digit_char.
  rewrite N_ascii_embedding; [lia|].
  apply N2Z.inj_lt. rewrite Z2N.id; lia.
Qed.

Lemma is_digit_digit_char (d : Z) : 0 ≤ d < 10 → is_digit (digit_char d) = true.
Proof.
  intros H. unfold is_digit. rewrite code_digit_char by done.
  apply andb_true_iff. split; lia.
Qed.

Lemma mod10_range (n : Z) : 0 ≤ n mod 10 < 10.
Proof. apply Z.mod_pos_bound. lia. Qed.

(** [fixed_digits] puts exactly [k] digits before [acc]. *)
Lemma fixed_digits_spec (k : nat) (n : Z) (acc : string) :
  ∃ ds, fixed_digits k n acc = ds +:+ acc ∧
        all_chars is_digit ds = true ∧ String.length ds = k.
Proof.
  revert n acc. induction k as [|k IH]; intros n acc; simpl.
  - by exists "".
  - destruct (IH (n / 10) (String (digit_char (n mod 10)) acc))
      as (ds & -> & Hd & Hl).
    exists (ds +:+ String (digit_char (n mod 10)) "").
    rewrite append_assoc, all_chars_append, length_append, Hd, Hl. simpl.
    rewrite is_digit_digit_char by apply mod10_range. split_and!; [done..|lia].
Qed.

(** [dec_digits] on a positive number within the reach of its fuel:
    a non-zero digit, then digits. *)
Lemma dec_digits_spec (fuel : nat) (n : Z) (acc : string) :
  1 ≤ n < 2 * 2 ^ Z.of_nat fuel →
  ∃ d ds, dec_digits fuel n acc = String d (ds +:+ acc) ∧
          49 ≤ code d ≤ 57 ∧ all_chars is_digit ds = true ∧
          ∀ rest a c,
            scan_dec (String d (ds +:+ rest)) a c
            = scan_dec rest (a * 10 ^ Z.of_nat (S (String.length ds)) + n)
                (c + Z.of_nat (S (String.length ds))).
Proof.
  revert n acc. induction fuel as [|fuel IH]; intros n acc Hn.
  - assert (n = 1) as -> by (simpl in Hn; lia).
    exists (digit_char 1), "". split_and!; try done.
    intros rest a c. rewrite append_nil_l. cbn [scan_dec].
    rewrite is_digit_digit_char, code_digit_char by lia.
    change (Z.of_nat (S (String.length ""))) with 1. rewrite Z.pow_1_r.
    f_equal; lia.
  - cbn [dec_digits]. destruct (n <? 10) eqn:E.
    + apply Z.ltb_lt in E. exists (digit_char (n mod 10)), "".
      rewrite Z.mod_small by lia. rewrite code_digit_char by lia.
      split_and!; try done; try lia.
      intros rest a c. rewrite append_nil_l. cbn [scan_dec].
      rewrite is_digit_digit_char, code_digit_char by lia.
      change (Z.of_nat (S (String.length ""))) with 1. rewrite Z.pow_1_r.
      f_equal; lia.
    + apply Z.ltb_ge in E.
      destruct (IH (n / 10) (String (digit_char (n mod 10)) acc))
        as (d & ds & -> & Hd & Hds & Hscan).
      { split; [apply Z.div_le_lower_bound; lia|].
        apply Z.div_lt_upper_bound; [lia|].
        rewrite Nat2Z.inj_succ, Z.pow_succ_r in Hn by lia. lia. }
      exists d, (ds +:+ String (digit_char (n mod 10)) "").
      rewrite append_assoc, all_chars_append, Hds. simpl all_chars.
      rewrite is_digit_digit_char by apply mod10_range.
      split_and!; try done; try lia.
      intros rest a c. rewrite append_assoc, append_cons, append_nil_l.
      rewrite Hscan. cbn [scan_dec].
      rewrite is_digit_digit_char, code_digit_char by apply mod10_range.
      rewrite length_append. simpl String.length.
      replace (Z.of_nat (S (String.length ds + 1)))
        with (Z.succ (Z.of_nat (S (String.length ds)))) by lia.
      rewrite Z.pow_succ_r by lia.
      pose proof (Z.div_mod n 10 ltac:(lia)).
      f_equal; lia.
Qed.

Lemma dec_spec (n : Z) :
  0 ≤ n →
  decimal_numeral (dec n) ∧
  ∀ rest a c,
    scan_dec (dec n +:+ rest) a c
    = scan_dec rest (a * 10 ^ Z.of_nat (String.length (dec n)) + n)
        (c + Z.of_nat (String.length (dec n))).
Proof.
  intros Hn. destruct (decide (n = 0)) as [->|Hne].
  - split; [by left|]. intros rest a c. change (dec 0) with "0".
    rewrite append_cons, append_nil_l. cbn [scan_dec].
    change (is_digit "0") with true. change (code "0") with 48.
    change (Z.of_nat (String.length "0")) with 1. rewrite Z.pow_1_r.
    cbv iota. f_equal; lia.
  - unfold dec.
    destruct (dec_digits_spec (Z.to_nat (Z.log2 n)) n "")
      as (d & ds & -> & Hd & Hds & Hscan).
    { rewrite Z2Nat.id by apply Z.log2_nonneg.
      pose proof (Z.log2_spec n ltac:(lia)) as Hl.
      rewrite Z.pow_succ_r in Hl by apply Z.log2_nonneg. lia. }
    rewrite append_nil_r. split.
    + right. by exists d, ds.
    + intros rest a c. rewrite append_cons. by rewrite Hscan.
Qed.



Lemma round_half_even_nonneg (num den : Z) :
  0 ≤ num → 0 < den → 0 ≤ round_half_even num den.
Proof.
  intros Hn Hd. unfold round_half_even.
  pose proof (Z.div_pos num den Hn Hd).
  repeat case_match; lia.
Qed.

Lemma put_int_notation (n : Z) : integer_notation (put_int n).
Proof.
  unfold put_int. destruct (n <? 0) eqn:E.
  - apply Z.ltb_lt in E. exists "-", (dec (- n)).
    split_and!; [done|by right|]. apply dec_spec. lia.
  - apply Z.ltb_ge in E. exists "", (dec n).
    split_and!; [done|by left|]. by apply dec_spec.
Qed.


Lemma decimal_numeral_head (s : string) :
  decimal_numeral s → ∃ d r, s = String d r ∧ 48 ≤ code d ≤ 57.
Proof.
  intros [->|(d & ds & -> & Hd & _)].
  - exists "0"%char, "". split; [done|]. by vm_compute.
  - exists d, ds. split; [done|lia].
Qed.


Lemma fixed_magnitude_notation (k : nat) (m : positive) (e : Z) :
  ∃ int frac,
    fixed_magnitude (S k) m e = int +:+ String "." frac ∧
    decimal_numeral int ∧ all_chars is_digit frac = true ∧
    String.length frac = S k.
Proof.
  unfold fixed_magnitude.
  destruct (scale2 _ 1 (- e)) as [num den] eqn:Hs.
  assert (0 ≤ num ∧ 0 < den) as [Hnum Hden].
  { assert (0 < 10 ^ Z.of_nat (S k)) by (apply Z.pow_pos_nonneg; lia).
    unfold scale2 in Hs. destruct (0 <=? - e) eqn:E; injection Hs as <- <-.
    - apply Z.leb_le in E.
      assert (0 < 2 ^ (- e)) by (apply Z.pow_pos_nonneg; lia). nia.
    - apply Z.leb_gt in E.
      assert (0 < 2 ^ (- - e)) by (apply Z.pow_pos_nonneg; lia). nia. }
  set (n := round_half_even num den).
  assert (0 ≤ n) by by apply round_half_even_nonneg.
  destruct (fixed_digits_spec (S k) (n mod 10 ^ Z.of_nat (S k)) "")
    as (frac & Hf & Hdig & Hlen).
  exists (dec (n / 10 ^ Z.of_nat (S k))), frac.
  unfold fraction_text. rewrite Hf, append_nil_r. split_and!; try done.
  apply dec_spec. apply Z.div_pos; [done|]. apply Z.pow_pos_nonneg; lia.
Qed.

Lemma put_fixed_notation (k : nat) (d : double) :
  is_finite d = true → fixed_notation (S k) (put_fixed (S k) d).
Proof.
  destruct d as [s|s|s|s m e]; try done; intros _; unfold put_fixed.
  - destruct (fixed_digits_spec (S k) 0 "") as (frac & Hf & Hdig & Hlen).
    exists (sign_text s), "0", frac. unfold fraction_text.
    rewrite Hf, append_nil_r. split_and!; try done.
    + destruct s; [by right|by left].
    + by left.
  - destruct (fixed_magnitude_notation k m e) as (int & frac & -> & ? & ? & ?).
    exists (sign_text s), int, frac. split_and!; try done.
    destruct s; [by right|by left].
Qed.


Lemma string_body_plain (s rest : string) :
  all_chars json_plain s = true →
  Json.string_body (s +:+ String dquote rest) = Some rest.
Proof.
  induction s as [|c s IH]; [done|].
  rewrite append_cons. cbn [all_chars Json.string_body].
  unfold json_plain at 1.
  intros [[[H1 H2]%andb_true_iff H3]%andb_true_iff H4]%andb_true_iff.
  apply negb_true_iff in H1, H2. rewrite H1, H2.
  assert ((code c <? 32) = false) as -> by lia. by apply IH.
Qed.

Lemma skip_digits_append (ds rest : string) (c : ascii) :
  all_chars is_digit ds = true → is_digit c = false →
  Json.skip_digits (ds +:+ String c rest) = String c rest.
Proof.
  intros Hds Hc. induction ds as [|d ds IH].
  - rewrite append_nil_l. cbn [Json.skip_digits]. by rewrite Hc.
  - rewrite append_cons. cbn [all_chars] in Hds.
    apply andb_true_iff in Hds as [Hd Hds].
    cbn [Json.skip_digits]. rewrite Hd. by apply IH.
Qed.

Lemma is_digit_code (c : ascii) : is_digit c = true ↔ 48 ≤ code c ≤ 57.
Proof. unfold is_digit. rewrite andb_true_iff. lia. Qed.

Lemma integer_part_numeral (int rest : string) (c : ascii) :
  decimal_numeral int → is_digit c = false →
  Json.integer_part (int +:+ String c rest) = Some (String c rest).
Proof.
  intros [->|(d & ds & -> & Hd & Hds)] Hc.
  - reflexivity.
  - rewrite append_cons. cbn [Json.integer_part].
    assert ((code d =? 48) = false) as -> by lia.
    assert (is_digit d = true) as -> by (apply is_digit_code; lia).
    by rewrite skip_digits_append.
Qed.

Lemma strip_minus (sg int rest : string) :
  (sg = "" ∨ sg = "-") → decimal_numeral int →
  match sg +:+ int +:+ rest with
  | String c r => if code c =? 45 then r else sg +:+ int +:+ rest
  | EmptyString => sg +:+ int +:+ rest
  end = int +:+ rest.
Proof.
  intros [->| ->] Hint.
  - rewrite append_nil_l.
    destruct (decimal_numeral_head _ Hint) as (d & r & -> & Hd).
    rewrite append_cons. by assert ((code d =? 45) = false) as -> by lia.
  - reflexivity.
Qed.

Lemma ends_number_spec (c : ascii) :
  ends_number c = true →
  is_digit c = false ∧ (code c =? 46) = false ∧
  (code c =? 101) || (code c =? 69) = false.
Proof.
  unfold ends_number. rewrite !andb_true_iff, !negb_true_iff.
  intros [[[-> ->] ->] ->]. done.
Qed.

Lemma number_integer (s rest : string) (c : ascii) :
  integer_notation s → ends_number c = true →
  Json.number (s +:+ String c rest) = Some (String c rest).
Proof.
  intros (sg & int & -> & Hsg & Hint) (Hc1 & Hc2 & Hc3)%ends_number_spec.
  unfold Json.number. rewrite append_assoc, strip_minus by done.
  rewrite integer_part_numeral by done.
  unfold Json.fraction_part. rewrite Hc2.
  unfold Json.exponent_part. by rewrite Hc3.
Qed.

Lemma number_fixed (k : nat) (s rest : string) (c : ascii) :
  fixed_notation (S k) s → ends_number c = true →
  Json.number (s +:+ String c rest) = Some (String c rest).
Proof.
  intros (sg & int & frac & -> & Hsg & Hint & Hfrac & Hlen)
    (Hc1 & Hc2 & Hc3)%ends_number_spec.
  unfold Json.number. rewrite !append_assoc, strip_minus by done.
  rewrite append_cons, integer_part_numeral by done.
  unfold Json.fraction_part, Json.digits1.
  change (code "." =? 46) with true. cbv iota.
  destruct frac as [|f frac]; [done|].
  rewrite append_cons. cbn [all_chars] in Hfrac.
  apply andb_true_iff in Hfrac as [-> Hfrac].
  rewrite skip_digits_append by done.
  unfold Json.exponent_part. by rewrite Hc3.
Qed.


Lemma to_json_template (u : PriceUpdate) :
  to_json u
  = json_template (exchange u) (pair u) (put_fixed 8 (bid u))
      (put_fixed 8 (ask u)) (put_int (timestamp_ms u)).
Proof. reflexivity. Qed.

Ltac push_literals :=
  repeat match goal with
         | |- context [lit ?s] =>
             let x := eval vm_compute in (lit s) in change (lit s) with x
         end;
  repeat rewrite ?append_cons, ?append_nil_l.

Lemma members_unfold (f : nat) (c : ascii) (r : string) :
  Json.members (S f) (String c r)
  = if code c =? 34 then
      match Json.string_body r with
      | Some r1 =>
          match Json.skip_ws r1 with
          | String c2 r2 =>
              if code c2 =? 58 then
                match Json.value f (Json.skip_ws r2) with
                | Some r3 =>
                    match Json.skip_ws r3 with
                    | String c4 r4 =>
                        if code c4 =? 44 then Json.members f (Json.skip_ws r4)
                        else if code c4 =? 125 then Some r4
                        else None
                    | EmptyString => None
                    end
                | None => None
                end
              else None
          | EmptyString => None
          end
      | None => None
      end
    else None.
Proof. reflexivity. Qed.

Lemma value_string (f : nat) (r : string) :
  Json.value (S f) (String dquote r) = Json.string_body r.
Proof. reflexivity. Qed.

Lemma skip_ws_unfold (c : ascii) (r : string) :
  Json.skip_ws (String c r)
  = if (code c =? 32) || (code c =? 9) || (code c =? 10) || (code c =? 13)
    then Json.skip_ws r else String c r.
Proof. reflexivity. Qed.

Lemma value_number (f : nat) (c : ascii) (r : string) :
  code c = 45 ∨ 48 ≤ code c ≤ 57 →
  Json.value (S f) (String c r) = Json.number (String c r) ∧
  Json.skip_ws (String c r) = String c r.
Proof.
  intros Hc. cbn [Json.value]. rewrite skip_ws_unfold.
  assert ((code c =? 123) = false) as -> by lia.
  assert ((code c =? 91) = false) as -> by lia.
  assert ((code c =? 34) = false) as -> by lia.
  assert ((code c =? 116) = false) as -> by lia.
  assert ((code c =? 102) = false) as -> by lia.
  assert ((code c =? 110) = false) as -> by lia.
  assert ((code c =? 32) = false) as -> by lia.
  assert ((code c =? 9) = false) as -> by lia.
  assert ((code c =? 10) = false) as -> by lia.
  assert ((code c =? 13) = false) as -> by lia.
  done.
Qed.

(** What a member with a string value and what follows it parse to. *)
Lemma members_string (f : nat) (key v rest : string) (c : ascii) :
  all_chars json_plain key = true → all_chars json_plain v = true →
  Json.skip_ws (String c rest) = String c rest →
  Json.members (S (S f))
    (member_text key (string_text v (String c rest)))
  = if code c =? 44 then Json.members (S f) (Json.skip_ws rest)
    else if code c =? 125 then Some rest else None.
Proof.
  intros Hk Hv Hc. unfold member_text, string_text. rewrite members_unfold.
  change (code dquote =? 34) with true. cbv iota.
  rewrite string_body_plain by done.
  change (Json.skip_ws (String ":" ?x)) with (String ":" x).
  change (code ":" =? 58) with true. cbv iota.
  change (Json.skip_ws (String dquote ?x)) with (String dquote x).
  rewrite value_string, string_body_plain by done. by rewrite Hc.
Qed.

Lemma number_notation_head (s : string) :
  number_notation s →
  ∃ x r, s = String x r ∧ (code x = 45 ∨ 48 ≤ code x ≤ 57).
Proof.
  assert (∀ sg int rest, (sg = "" ∨ sg = "-") → decimal_numeral int →
            ∃ x r, sg +:+ int +:+ rest = String x r ∧
                   (code x = 45 ∨ 48 ≤ code x ≤ 57)) as H.
  { intros sg int rest [->| ->] Hint.
    - destruct (decimal_numeral_head _ Hint) as (d & r & -> & Hd).
      exists d, (r +:+ rest). split; [done|by right].
    - exists "-"%char, (int +:+ rest). split; [done|by left]. }
  intros [(sg & int & -> & Hsg & Hint)|(k & sg & int & frac & -> & Hsg & Hint & _)].
  - rewrite <- (append_nil_r int). by apply H.
  - by apply H.
Qed.

Lemma number_notation_parse (s rest : string) (c : ascii) :
  number_notation s → ends_number c = true →
  Json.number (s +:+ String c rest) = Some (String c rest).
Proof.
  intros [H|[k H]] Hc; [by apply number_integer|by eapply number_fixed].
Qed.

(** What a member with a number as value and what follows it parse to. *)
Lemma members_number (f : nat) (key n rest : string) (c : ascii) :
  all_chars json_plain key = true → number_notation n →
  ends_number c = true → Json.skip_ws (String c rest) = String c rest →
  Json.members (S (S f)) (member_text key (n +:+ String c rest))
  = if code c =? 44 then Json.members (S f) (Json.skip_ws rest)
    else if code c =? 125 then Some rest else None.
Proof.
  intros Hk Hn Hend Hc. unfold member_text. rewrite members_unfold.
  change (code dquote =? 34) with true. cbv iota.
  rewrite string_body_plain by done.
  change (Json.skip_ws (String ":" ?x)) with (String ":" x).
  change (code ":" =? 58) with true. cbv iota.
  pose proof (number_notation_parse n rest c Hn Hend) as Hp.
  destruct (number_notation_head n Hn) as (x & r & -> & Hx).
  rewrite append_cons in *.
  destruct (value_number f x (r +:+ String c rest) Hx) as [Hv ->].
  by rewrite Hv, Hp, Hc.
Qed.

Lemma template_well_formed (ex pr b a t : string) :
  all_chars json_plain ex = true → all_chars json_plain pr = true →
  fixed_notation 8 b → fixed_notation 8 a → integer_notation t →
  Json.object_document 7 (json_template ex pr b a t) = true.
Proof.
  intros Hex Hpr Hb Ha Ht.
  change (json_template ex pr b a t) with
    (String "{"
       (member_text "exchange" (string_text ex (String ","
       (member_text "pair" (string_text pr (String ","
       (member_text "bid" (b +:+ String ","
       (member_text "ask" (a +:+ String ","
       (member_text "timestamp" (t +:+ String "}" ""))))))))))))).
  unfold Json.object_document, Json.document.
  change (Json.skip_ws (String "{" ?x)) with (String "{" x).
  change (code "{" =? 123) with true. cbn [andb].
  change (Json.value 7 (String "{" (member_text ?k ?x)))
    with (Json.members 6 (member_text k x)).
  rewrite members_string by done.
  change (code "," =? 44) with true. cbv iota.
  change (Json.skip_ws (member_text ?k ?x)) with (member_text k x).
  rewrite members_string by done.
  change (code "," =? 44) with true. cbv iota.
  change (Json.skip_ws (member_text ?k ?x)) with (member_text k x).
  rewrite members_number; [|done|right; by exists 7%nat|done|done].
  change (code "," =? 44) with true. cbv iota.
  change (Json.skip_ws (member_text ?k ?x)) with (member_text k x).
  rewrite members_number; [|done|right; by exists 7%nat|done|done].
  change (code "," =? 44) with true. cbv iota.
  change (Json.skip_ws (member_text ?k ?x)) with (member_text k x).
  rewrite members_number; [|done|by left|done|done].
  reflexivity.
Qed.









Section SessionFacts.
Context (c : Client).

Lemma reconnect_attempts (s : session) :
  reconnect_attempts_ (reconnect s)
  = if running_ s && (reconnect_attempts_ s <? MAX_RECONNECT_ATTEMPTS)
    then reconnect_attempts_ s + 1 else reconnect_attempts_ s.
Proof.
  unfold reconnect, MAX_RECONNECT_ATTEMPTS.
  destruct (running_ s); simpl; [|done].
  destruct (10 <=? reconnect_attempts_ s) eqn:E1,
    (reconnect_attempts_ s <? 10) eqn:E2; simpl; try done; lia.
Qed.

Lemma reconnect_running (s : session) : running_ (reconnect s) = running_ s.
Proof. unfold reconnect. by repeat case_match. Qed.

Lemma subscribe_fields (s : session) :
  reconnect_attempts_ (subscribe c s) = reconnect_attempts_ s ∧
  running_ (subscribe c s) = running_ s.
Proof. unfold subscribe. by case_match. Qed.

Lemma on_read_ok_fields (message : string) (now : Z) (s : session) :
  reconnect_attempts_ (on_read c false message now s) = reconnect_attempts_ s ∧
  running_ (on_read c false message now s) = running_ s.
Proof. unfold on_read. by repeat case_match. Qed.

(** What a handler does to the counter and to the running flag. *)
Lemma handler_fields (k : completion) (s : session) :
  running_ (handler c k s) = running_ s ∧
  reconnect_attempts_ (handler c k s)
  = if is_failure k then reconnect_attempts_ (reconnect s)
    else match k with
         | WsHandshakeDone _ => 0
         | _ => reconnect_attempts_ s
         end.
Proof.
  destruct k as [ec|ec sni|ec|ec|ec|ec m now|]; cbn [handler is_failure].
  - unfold on_resolve. destruct ec; [by rewrite reconnect_running|done].
  - unfold on_connect, ssl_handshake.
    destruct ec, sni; cbn [orb negb]; by rewrite ?reconnect_running.
  - unfold on_ssl_handshake. destruct ec; [by rewrite reconnect_running|done].
  - unfold on_ws_handshake. destruct ec; [by rewrite reconnect_running|].
    by destruct (subscribe_fields (set_attempts 0 s)) as [-> ->].
  - unfold on_write. destruct ec; [by rewrite reconnect_running|done].
  - destruct ec; [unfold on_read; cbv iota; by rewrite reconnect_running|].
    destruct (on_read_ok_fields m now s) as [H1 H2]. split; assumption.
  - unfold on_wait. destruct (running_ s) eqn:E; split; done.
Qed.

Lemma step_fields (ev : event) (s s' : session) :
  step c ev s = Some s' →
  running_ s' = match ev with
                | Start => true
                | Stop => false
                | Complete _ _ => running_ s
                end ∧
  reconnect_attempts_ s'
  = match ev with
    | Start => 0
    | Stop => reconnect_attempts_ s
    | Complete _ k =>
        if is_failure k then
          if running_ s && (reconnect_attempts_ s <? MAX_RECONNECT_ATTEMPTS)
          then reconnect_attempts_ s + 1 else reconnect_attempts_ s
        else match k with
             | WsHandshakeDone _ => 0
             | _ => reconnect_attempts_ s
             end
    end.
Proof.
  destruct ev as [| |op k]; cbn [step].
  - by intros [= <-].
  - by intros [= <-].
  - destruct (completes k op); [|done].
    destruct (take_pending op (pending s)) as [rest|]; [|done].
    intros [= <-].
    destruct (handler_fields k
      {| running_ := running_ s; reconnect_attempts_ := reconnect_attempts_ s;
         pending := rest; issued := issued s; notified := notified s |})
      as [-> ->].
    by rewrite reconnect_attempts.
Qed.

(** The counter stays within its bounds. *)
Lemma reachable_attempts (s : session) :
  reachable c s →
  0 ≤ reconnect_attempts_ s ≤ MAX_RECONNECT_ATTEMPTS.
Proof.
  unfold MAX_RECONNECT_ATTEMPTS.
  induction 1 as [|ev s s' _ IH Hstep]; [done|].
  apply step_fields in Hstep as [_ ->]. unfold MAX_RECONNECT_ATTEMPTS.
  destruct ev as [| |op k]; [lia|lia|].
  destruct (is_failure k).
  - destruct (running_ s && (reconnect_attempts_ s <? 10)) eqn:E; [|lia].
    apply andb_true_iff in E as [_ E]. lia.
  - destruct k; lia.
Qed.

End SessionFacts.

(** C9. In every reachable state the reconnect counter lies between 0
    and [MAX_RECONNECT_ATTEMPTS] = 10. [start()] and a successful
    WebSocket handshake set it to 0; [reconnect()] adds exactly 1, and
    only in a running session whose counter is below 10; no step of the
    session changes it in any other way. *)
Theorem attempts_invariant (c : Client) :
  (∀ s, reachable c s →
        0 ≤ reconnect_attempts_ s ≤ MAX_RECONNECT_ATTEMPTS) ∧
  (∀ s, reconnect_attempts_ (start c s) = 0) ∧
  (∀ s, reconnect_attempts_ (on_ws_handshake c false s) = 0) ∧
  (∀ s, reconnect_attempts_ (reconnect s)
        = if running_ s && (reconnect_attempts_ s <? MAX_RECONNECT_ATTEMPTS)
          then reconnect_attempts_ s + 1 else reconnect_attempts_ s) ∧
  (∀ ev s s', step c ev s = Some s' →
     reconnect_attempts_ s' = reconnect_attempts_ s ∨
     (resets ev = true ∧ reconnect_attempts_ s' = 0) ∨
     (fails ev = true ∧ reconnect_attempts_ s < MAX_RECONNECT_ATTEMPTS ∧
      reconnect_attempts_ s' = reconnect_attempts_ s + 1)).
Proof.
  split_and!.
  - apply reachable_attempts.
  - done.
  - intros s. apply (handler_fields c (WsHandshakeDone false) s).
  - apply reconnect_attempts.
  - intros ev s s' [_ ->]%step_fields.
    destruct ev as [| |op k]; [right; by left|by left|].
    cbn [fails resets]. destruct (is_failure k) eqn:Ef.
    + destruct (running_ s && _) eqn:E; [|by left].
      apply andb_true_iff in E as [_ E]. right; right. split_and!; [done|lia|done].
    + destruct k as [| | |[]| | |]; try (by left); try done.
      right; left. done.
Qed.



Lemma attempts_invariant_witness :
  0 ≤ reconnect_attempts_ (start (client_of Kraken) constructed)
    ≤ MAX_RECONNECT_ATTEMPTS ∧
  (reconnect_attempts_ (start (client_of Kraken) constructed)
   = reconnect_attempts_ constructed ∨
   (resets Start = true ∧
    reconnect_attempts_ (start (client_of Kraken) constructed) = 0) ∨
   (fails Start = true ∧
    reconnect_attempts_ constructed < MAX_RECONNECT_ATTEMPTS ∧
    reconnect_attempts_ (start (client_of Kraken) constructed)
    = reconnect_attempts_ constructed + 1)).
Proof.
  split.
  - apply (proj1 (attempts_invariant (client_of Kraken))).
    exact (reachable_step (client_of Kraken) Start constructed _
             (reachable_constructed _) eq_refl).
  - exact (proj2 (proj2 (proj2 (proj2 (attempts_invariant (client_of Kraken)))))
             Start constructed _ eq_refl).
Defined.

Section Backoff.
Context (c : Client).

(** A running session with a counter below the cap answers a failure by
    arming the timer. *)
Lemma reconnect_arms (s : session) :
  running_ s = true → reconnect_attempts_ s < MAX_RECONNECT_ATTEMPTS →
  reconnect s
  = async (AsyncWait RECONNECT_DELAY_SECONDS)
      (set_attempts (reconnect_attempts_ s + 1) s).
Proof.
  intros Hr Ha. unfold reconnect. rewrite Hr.
  by assert ((MAX_RECONNECT_ATTEMPTS <=? reconnect_attempts_ s) = false)
    as -> by lia.
Qed.

(** At the cap, or once stopped, it does nothing. *)
Lemma reconnect_gives_up (s : session) :
  running_ s = false ∨ MAX_RECONNECT_ATTEMPTS ≤ reconnect_attempts_ s →
  reconnect s = s.
Proof.
  intros H. unfold reconnect.
  destruct (running_ s); [|done].
  destruct H as [|H]; [done|].
  by assert ((MAX_RECONNECT_ATTEMPTS <=? reconnect_attempts_ s) = true)
    as -> by lia.
Qed.

Lemma handler_failure (k : completion) (s : session) :
  is_failure k = true → handler c k s = reconnect s.
Proof.
  destruct k as [ec|ec sni|ec|ec|ec|ec m now|]; cbn [is_failure handler];
    try (by intros ->); try done.
  unfold on_connect, ssl_handshake. by destruct ec, sni.
Qed.

Lemma quiet_events (quiet : list event) (s s' : session) :
  Forall (fun ev => stops ev = false ∧ fails ev = false) quiet →
  running_ s = true → reconnect_attempts_ s = 0 →
  run c quiet s = Some s' →
  running_ s' = true ∧ reconnect_attempts_ s' = 0.
Proof.
  intros Hq. revert s. induction Hq as [|ev quiet [Hs Hf] _ IH]; intros s Hr Ha.
  - by intros [= <-].
  - cbn [run]. destruct (step c ev s) as [s1|] eqn:Hstep; [|done].
    apply step_fields in Hstep as [Hr1 Ha1]. apply IH.
    + rewrite Hr1. by destruct ev.
    + rewrite Ha1. destruct ev as [| |op k]; try done.
      cbn [fails] in Hf. rewrite Hf. by destruct k.
Qed.

Lemma run_app (l1 l2 : list event) (s : session) :
  run c (l1 ++ l2) s
  = match run c l1 s with
    | Some s1 => run c l2 s1
    | None => None
    end.
Proof.
  revert s. induction l1 as [|ev l1 IH]; intros s; [done|].
  cbn [run app]. destruct (step c ev s); [apply IH|done].
Qed.

End Backoff.

(** C2. Right after a successful WebSocket handshake the counter is 0.
    In a session that is running, whatever completes without error
    after that leaves it at 0, and the first failure then arms the
    5-second timer with the counter at 1. *)
Theorem counter_reset (c : Client) (s s2 : session) (quiet : list event)
    (failure : event) :
  running_ s = true →
  Forall (fun ev => stops ev = false ∧ fails ev = false) quiet →
  fails failure = true →
  reconnect_attempts_ (on_ws_handshake c false s) = 0 ∧
  (run c (quiet ++ [failure]) (on_ws_handshake c false s) = Some s2 →
   reconnect_attempts_ s2 = 1 ∧
   last (pending s2) = Some (AsyncWait RECONNECT_DELAY_SECONDS)).
Proof.
  intros Hr Hq Hf.
  destruct (handler_fields c (WsHandshakeDone false) s) as [Hr1 Ha1].
  cbn [handler is_failure] in Hr1, Ha1. split; [done|].
  rewrite run_app. destruct (run c quiet _) as [s1|] eqn:Hrun; [|done].
  apply quiet_events in Hrun as [Hr2 Ha2]; [|done|congruence|done].
  cbn [run]. destruct (step c failure s1) as [s3|] eqn:Hstep; [|done].
  intros [= <-].
  destruct failure as [| |op k]; try done. cbn [fails] in Hf.
  cbn [step] in Hstep. destruct (completes k op); [|done].
  destruct (take_pending op (pending s1)) as [rest|]; [|done].
  injection Hstep as <-. rewrite handler_failure by done.
  rewrite reconnect_arms; [|done|cbn; rewrite Ha2; done].
  cbn [async set_attempts reconnect_attempts_ pending]. rewrite Ha2.
  split; [done|]. apply last_snoc.
Qed.


Lemma counter_reset_witness :
  ∃ s2,
    run (client_of Kraken)
      ([Complete (AsyncWrite KrakenClient.get_subscribe_message)
          (WriteDone false);
        Complete AsyncRead (ReadDone false kraken_tick_frame 0)]
       ++ [Complete AsyncRead (ReadDone true "" 0)])
      (on_ws_handshake (client_of Kraken) false kraken_handshaking)
    = Some s2 ∧
    reconnect_attempts_ s2 = 1 ∧
    last (pending s2) = Some (AsyncWait RECONNECT_DELAY_SECONDS).
Proof.
  destruct (run (client_of Kraken) _ _) as [s2|] eqn:E;
    [|vm_compute in E; discriminate E].
  exists s2. split; [reflexivity|].
  refine (proj2 (counter_reset (client_of Kraken) kraken_handshaking s2
                   [Complete (AsyncWrite KrakenClient.get_subscribe_message)
                      (WriteDone false);
                    Complete AsyncRead (ReadDone false kraken_tick_frame 0)]
                   (Complete AsyncRead (ReadDone true "" 0))
                   eq_refl _ eq_refl) E).
  repeat constructor.
Defined.

Section Cap.
Context (c : Client) (at_resolve : Z → bool).

Lemma take_pending_head (op : operation) (rest : list operation) :
  take_pending op (op :: rest) = Some rest.
Proof. cbn [take_pending]. by rewrite decide_True. Qed.

Lemma drive_head (env : environment) (f : nat) (s : session)
    (op : operation) (rest : list operation) :
  pending s = op :: rest → completes (env s op) op = true →
  drive c env (S f) s
  = drive c env f
      (handler c (env s op)
         {| running_ := running_ s;
            reconnect_attempts_ := reconnect_attempts_ s;
            pending := rest; issued := issued s; notified := notified s |}).
Proof.
  intros Hp Hc. cbn [drive step]. by rewrite Hp, Hc, take_pending_head.
Qed.

Lemma drive_idle (env : environment) (f : nat) (s : session) :
  pending s = [] → drive c env f s = s.
Proof. intros Hp. destruct f; [done|]. cbn [drive]. by rewrite Hp. Qed.

Let env := always_failing at_resolve.

Ltac session_norm :=
  cbn [always_failing handler on_resolve on_connect on_wait
       running_ reconnect_attempts_ pending issued notified
       failing_trace_from ssl_handshake negb];
  unfold resolve, connect, async, set_attempts, attempt_ops;
  cbn [running_ reconnect_attempts_ pending issued notified app].

Lemma failing_rounds (n : nat) :
  ∀ (k : Z) (i : list operation) (nt : list PriceUpdate) (e : nat),
    k + Z.of_nat n = 10 →
    drive c env (3 * n + 2 + e)
      {| running_ := true; reconnect_attempts_ := k;
         pending := [AsyncResolve client_host client_port];
         issued := i ++ [AsyncResolve client_host client_port];
         notified := nt |}
    = {| running_ := true; reconnect_attempts_ := 10; pending := [];
         issued := i ++ failing_trace_from c at_resolve k n;
         notified := nt |}.
Proof.
  unfold env.
  induction n as [|n IH]; intros k i nt e Hk.
  - assert (k = 10) as -> by lia.
    change (3 * 0 + 2 + e)%nat with (S (S e)).
    rewrite (drive_head _ _ _ _ []) by done. session_norm.
    destruct (at_resolve 10); session_norm.
    + rewrite reconnect_gives_up by (right; done).
      rewrite drive_idle by done. done.
    + rewrite (drive_head _ _ _ _ []) by done. session_norm.
      rewrite reconnect_gives_up by (right; done).
      rewrite drive_idle by done. by rewrite <- ?app_assoc.
  - replace (3 * S n + 2 + e)%nat with (S (S (S (3 * n + 2 + e)))) by lia.
    assert (k < MAX_RECONNECT_ATTEMPTS) by (unfold MAX_RECONNECT_ATTEMPTS; lia).
    rewrite (drive_head _ _ _ _ []) by done. session_norm.
    destruct (at_resolve k); session_norm.
    + rewrite reconnect_arms by done. session_norm.
      rewrite (drive_head _ _ _ _ []) by done. session_norm.
      replace (S (3 * n + 2 + e)) with (3 * n + 2 + S e)%nat by lia.
      rewrite IH by lia. by rewrite <- ?app_assoc.
    + rewrite (drive_head _ _ _ _ []) by done. session_norm.
      rewrite reconnect_arms by done. session_norm.
      rewrite (drive_head _ _ _ _ []) by done. session_norm.
      rewrite IH by lia. by rewrite <- ?app_assoc.
Qed.

End Cap.

Lemma failing_trace_waits (c : Client) (at_resolve : Z → bool) (n : nat) (k : Z) :
  List.filter is_wait (failing_trace_from c at_resolve k n)
  = replicate n (AsyncWait RECONNECT_DELAY_SECONDS).
Proof.
  revert k. induction n as [|n IH]; intros k; cbn [failing_trace_from].
  - unfold attempt_ops. by destruct (at_resolve k).
  - rewrite List.filter_app. cbn [List.filter is_wait]. rewrite IH.
    unfold attempt_ops. by destruct (at_resolve k).
Qed.

Lemma failing_trace_resolves (c : Client) (at_resolve : Z → bool) (n : nat) (k : Z) :
  List.filter is_resolve (failing_trace_from c at_resolve k n)
  = replicate (S n) (AsyncResolve client_host client_port).
Proof.
  revert k. induction n as [|n IH]; intros k; cbn [failing_trace_from].
  - unfold attempt_ops. by destruct (at_resolve k).
  - rewrite List.filter_app. cbn [List.filter is_resolve]. rewrite IH.
    unfold attempt_ops. by destruct (at_resolve k).
Qed.

(** C1. A session started with [start()] whose every connection
    attempt fails, at the resolve or at the connect, makes the first
    attempt and then exactly ten reconnection attempts, each after a
    wait of [RECONNECT_DELAY_SECONDS] = 5 seconds ([failing_trace]).
    After the failure of the tenth it is left with nothing pending: no
    completion can run, so it issues no further operation. *)
Theorem reconnection_cap (c : Client) (at_resolve : Z → bool) (extra : nat) :
  let s := drive c (always_failing at_resolve) (32 + extra)
             (start c constructed) in
  issued s = failing_trace c at_resolve ∧
  List.filter is_wait (issued s)
  = replicate 10 (AsyncWait RECONNECT_DELAY_SECONDS) ∧
  List.filter is_resolve (issued s)
  = replicate 11 (AsyncResolve client_host client_port) ∧
  running_ s = true ∧ reconnect_attempts_ s = MAX_RECONNECT_ATTEMPTS ∧
  pending s = [] ∧ ∀ op k, step c (Complete op k) s = None.
Proof.
  pose proof (failing_rounds c at_resolve 10 0 [] [] extra eq_refl) as H.
  change (3 * 10 + 2 + extra)%nat with (32 + extra)%nat in H.
  change (drive c (always_failing at_resolve) (32 + extra)
            (start c constructed))
    with (drive c (always_failing at_resolve) (32 + extra)
            {| running_ := true; reconnect_attempts_ := 0;
               pending := [AsyncResolve client_host client_port];
               issued := [] ++ [AsyncResolve client_host client_port];
               notified := [] |}).
  cbv zeta. rewrite H. cbn [issued running_ reconnect_attempts_ pending app].
  split_and!; try done.
  - apply failing_trace_waits.
  - apply failing_trace_resolves.
  - intros op k. cbn [step pending take_pending]. by destruct (completes k op).
Qed.

Example every_resolve_fails (c : Client) :
  failing_trace c (fun _ => true)
  = AsyncResolve client_host client_port
    :: concat (replicate 10 [AsyncWait RECONNECT_DELAY_SECONDS;
                             AsyncResolve client_host client_port]).
Proof. reflexivity. Qed.


Lemma received_insert (w : wire) (c x : socket) (v : string) :
  received (<[c := v]> w) x = if decide (c = x) then v else received w x.
Proof.
  unfold received, wire in *. rewrite lookup_insert. by case_decide.
Qed.

Section FanOut.
Context (net : network) (json_msg : string).

Lemma asio_write_spec (c : socket) (w : wire) :
  asio_write net c json_msg w
  = (<[c := received w c +:+ delivered (net c) json_msg]> w,
     negb (write_ok (net c))).
Proof. unfold asio_write. by destruct (net c). Qed.

Lemma remove_if_write_kept (cs : list socket) (w : wire) :
  (remove_if_write net json_msg cs w).1
  = List.filter (fun c => write_ok (net c)) cs.
Proof.
  revert w. induction cs as [|c cs IH]; intros w; [done|].
  cbn [remove_if_write List.filter]. rewrite asio_write_spec.
  specialize (IH (<[c := received w c +:+ delivered (net c) json_msg]> w)).
  destruct (remove_if_write _ _ cs _) as [kept w2]. cbn [fst] in *.
  rewrite <- IH. by destruct (write_ok (net c)).
Qed.

Lemma remove_if_write_other (cs : list socket) (w : wire) (x : socket) :
  x ∉ cs → received (remove_if_write net json_msg cs w).2 x = received w x.
Proof.
  revert w. induction cs as [|c cs IH]; intros w Hx; [done|].
  apply not_elem_of_cons in Hx as [Hne Hx].
  cbn [remove_if_write]. rewrite asio_write_spec.
  specialize (IH (<[c := received w c +:+ delivered (net c) json_msg]> w) Hx).
  destruct (remove_if_write _ _ cs _) as [kept w2]. cbn [snd] in *.
  rewrite IH, received_insert. by rewrite decide_False.
Qed.

Lemma remove_if_write_member (cs : list socket) (w : wire) (x : socket) :
  NoDup cs → x ∈ cs →
  received (remove_if_write net json_msg cs w).2 x
  = received w x +:+ delivered (net x) json_msg.
Proof.
  revert w. induction cs as [|c cs IH]; intros w Hnd Hx.
  - by apply elem_of_nil in Hx.
  - apply NoDup_cons in Hnd as [Hc Hnd].
    cbn [remove_if_write]. rewrite asio_write_spec.
    pose proof (remove_if_write_other cs
      (<[c := received w c +:+ delivered (net c) json_msg]> w)) as Hother.
    specialize (IH (<[c := received w c +:+ delivered (net c) json_msg]> w) Hnd).
    destruct (remove_if_write _ _ cs _) as [kept w2]. cbn [snd] in *.
    apply elem_of_cons in Hx as [->|Hx].
    + rewrite Hother by done. by rewrite received_insert, decide_True.
    + rewrite IH by done. rewrite received_insert, decide_False; [done|].
      by intros ->.
Qed.

End FanOut.

Lemma broadcast_clients (net : network) (u : PriceUpdate) (st : server * wire) :
  clients_ (broadcast_price net u st).1
  = List.filter (fun c => write_ok (net c)) (clients_ st.1) ∧
  next_socket (broadcast_price net u st).1 = next_socket st.1.
Proof.
  unfold broadcast_price.
  pose proof (remove_if_write_kept net (to_json u +:+ String LF "")
                (clients_ st.1) st.2) as H.
  destruct (remove_if_write _ _ _ _) as [kept w]. by cbn [fst] in *.
Qed.

Lemma act_well_formed (a : action) (st : server * wire) :
  well_formed_server st.1 → well_formed_server (act a st).1.
Proof.
  intros [Hnd Hlt]. destruct a as [|net u]; cbn [act].
  - unfold handle_accept, well_formed_server. cbn [fst clients_ next_socket].
    split.
    + apply NoDup_app. split_and!; [done| |apply NoDup_singleton].
      intros x Hx ->%list_elem_of_singleton. apply Hlt in Hx. lia.
    + intros x [Hx| ->%list_elem_of_singleton]%elem_of_app; [|lia].
      apply Hlt in Hx. lia.
  - destruct (broadcast_clients net u st) as [Hc Hn].
    unfold well_formed_server. rewrite Hc, Hn. split.
    + apply NoDup_ListNoDup, List.NoDup_filter, NoDup_ListNoDup, Hnd.
    + intros x Hx%list_elem_of_In%List.filter_In. apply Hlt, list_elem_of_In, Hx.
Qed.

Lemma acts_well_formed (l : list action) (st : server * wire) :
  well_formed_server st.1 → well_formed_server (acts l st).1.
Proof.
  revert st. induction l as [|a l IH]; intros st H; [done|].
  apply IH. by apply act_well_formed.
Qed.

Lemma listening_well_formed : well_formed_server listening.1.
Proof.
  split; [apply NoDup_nil_2|]. intros x Hx. by apply elem_of_nil in Hx.
Qed.

(** A socket that is gone does not come back: later connections get
    new sockets. *)
Lemma removed_stays_removed (l : list action) (st : server * wire) (x : socket) :
  (x < next_socket st.1)%nat → x ∉ clients_ st.1 →
  x ∉ clients_ (acts l st).1.
Proof.
  revert st. induction l as [|a l IH]; intros st Hlt Hx; [done|].
  cbn [acts foldl]. apply IH.
  - destruct a as [|net u]; cbn [act].
    + cbn. lia.
    + by rewrite (proj2 (broadcast_clients net u st)).
  - destruct a as [|net u]; cbn [act].
    + cbn. intros [?| ->%list_elem_of_singleton]%elem_of_app; [done|lia].
    + rewrite (proj1 (broadcast_clients net u st)).
      intros H%list_elem_of_In%List.filter_In. apply Hx, list_elem_of_In, H.
Qed.

(** C3. Take any consumer in the set when a broadcast begins. If its
    write completes, it has received the whole line, [to_json] and LF,
    and stays in the set, whatever happens to the other consumers; if
    its write fails, it is out of the set when the call returns and is
    in the set of no later broadcast. *)
Theorem broadcast_isolation (history later : list action) (net : network)
    (u : PriceUpdate) (x : socket) :
  x ∈ clients_ (acts history listening).1 →
  match net x with
  | WriteComplete =>
      x ∈ clients_ (broadcast_price net u (acts history listening)).1 ∧
      received (broadcast_price net u (acts history listening)).2 x
      = received (acts history listening).2 x
        +:+ (to_json u +:+ String LF "")
  | WriteError _ =>
      (x ∉ clients_ (broadcast_price net u (acts history listening)).1) ∧
      (x ∉ clients_
             (acts later (broadcast_price net u (acts history listening))).1)
  end.
Proof.
  intros Hx.
  pose proof (acts_well_formed history listening listening_well_formed)
    as [Hnd Hlt].
  destruct (broadcast_clients net u (acts history listening)) as [Hc Hn].
  destruct (net x) as [|n] eqn:Hnet.
  - split.
    + rewrite Hc. apply list_elem_of_In, List.filter_In.
      split; [by apply list_elem_of_In|by rewrite Hnet].
    + unfold broadcast_price.
      pose proof (remove_if_write_member net (to_json u +:+ String LF "")
                    _ (acts history listening).2 x Hnd Hx) as Hm.
      destruct (remove_if_write _ _ _ _) as [kept w]. cbn [snd] in *.
      by rewrite Hm, Hnet.
  - assert (x ∉ clients_ (broadcast_price net u (acts history listening)).1)
      as Hgone.
    { rewrite Hc. intros [_ H]%list_elem_of_In%List.filter_In.
      by rewrite Hnet in H. }
    split; [done|]. apply removed_stays_removed; [|done].
    rewrite Hn. by apply Hlt.
Qed.



Lemma broadcast_isolation_witness :
  1%nat ∈ clients_ (acts [Accept; Accept] listening).1 ∧
  0%nat ∈ clients_ (acts [Accept; Accept] listening).1 ∧
  (1%nat ∈ clients_ (broadcast_price failing_first plain_update
                      (acts [Accept; Accept] listening)).1 ∧
   received (broadcast_price failing_first plain_update
               (acts [Accept; Accept] listening)).2 1%nat
   = received (acts [Accept; Accept] listening).2 1%nat
     +:+ (to_json plain_update +:+ String LF "")) ∧
  ((0%nat ∉ clients_ (broadcast_price failing_first plain_update
                       (acts [Accept; Accept] listening)).1) ∧
   (0%nat ∉ clients_
              (acts [Accept]
                 (broadcast_price failing_first plain_update
                    (acts [Accept; Accept] listening))).1)).
Proof.
  assert (1%nat ∈ clients_ (acts [Accept; Accept] listening).1) as H1
    by (vm_compute; repeat constructor).
  assert (0%nat ∈ clients_ (acts [Accept; Accept] listening).1) as H0
    by (vm_compute; repeat constructor).
  split; [exact H1|]. split; [exact H0|]. split.
  - exact (broadcast_isolation [Accept; Accept] [] failing_first
             plain_update 1%nat H1).
  - exact (broadcast_isolation [Accept; Accept] [Accept] failing_first
             plain_update 0%nat H0).
Defined.

(** C5. For every venue and every canonical pair, the forward map has
    an entry for the pair and the reverse map takes that entry back to
    the pair, in whatever order the constructor's loop meets the
    entries of the forward map. *)
Theorem symbol_round_trip (v : venue) (c : string) :
  c ∈ canonical_pairs →
  ∃ n, pair_mapping v !! c = Some n ∧ reverse_mapping v !! n = Some c ∧
       ∀ order, order ≡ₚ map_to_list (pair_mapping v) →
                build_reverse order !! n = Some c.
Proof.
  intros Hc.
  assert (∃ n, pair_mapping v !! c = Some n) as [n Hn].
  { unfold canonical_pairs in Hc.
    repeat (apply elem_of_cons in Hc as [->|Hc]);
      [..|by apply elem_of_nil in Hc]; destruct v; eexists; reflexivity. }
  exists n.
  assert (∀ order, order ≡ₚ map_to_list (pair_mapping v) →
                   build_reverse order !! n = Some c) as H.
  { intros order Hp. apply build_reverse_lookup.
    - rewrite Hp. apply pair_mapping_values_distinct.
    - rewrite Hp. by apply elem_of_map_to_list. }
  split_and!; [done| |done].
  rewrite reverse_mapping_unfold. by apply H.
Qed.

Lemma symbol_round_trip_witness :
  "BTC/USDT" ∈ canonical_pairs ∧
  ∃ n, pair_mapping Kraken !! "BTC/USDT" = Some n ∧
       reverse_mapping Kraken !! n = Some "BTC/USDT" ∧
       ∀ order, order ≡ₚ map_to_list (pair_mapping Kraken) →
                build_reverse order !! n = Some "BTC/USDT".
Proof.
  assert ("BTC/USDT" ∈ canonical_pairs) as H by (apply elem_of_cons; by left).
  split; [exact H|]. exact (symbol_round_trip Kraken "BTC/USDT" H).
Defined.




(** Two records without double quote or backslash in their names whose
    output is not a JSON text: one with the prices [inf] and [nan], one
    with a line feed in the exchange name. *)
Lemma to_json_well_formed_counterexample :
  all_chars (fun c => negb (code c =? 34) && negb (code c =? 92))
    (exchange nonfinite_update +:+ pair nonfinite_update) = true ∧
  ¬ Json.well_formed_object (to_json nonfinite_update) ∧
  all_chars (fun c => negb (code c =? 34) && negb (code c =? 92))
    (exchange two_line_update +:+ pair two_line_update) = true ∧
  ¬ Json.well_formed_object (to_json two_line_update).
Proof.
  split_and!; try (vm_compute; reflexivity).
  - intros [fuel H]. revert H.
    do 5 (destruct fuel as [|fuel]; [by vm_compute|]). by vm_compute.
  - intros [fuel H]. revert H.
    do 5 (destruct fuel as [|fuel]; [by vm_compute|]). by vm_compute.
Qed.

(** C10 (amended). [to_json] escapes nothing. When the names hold no
    double quote, no backslash and no control character and the prices
    are finite, the output is a well-formed JSON object; for a record
    with a double quote in its exchange name it is not. *)
Theorem to_json_well_formed :
  (∀ u, all_chars json_plain (exchange u) = true →
        all_chars json_plain (pair u) = true →
        is_finite (bid u) = true → is_finite (ask u) = true →
        Json.well_formed_object (to_json u)) ∧
  (∃ u, all_chars (fun c => negb (code c =? 34)) (exchange u) = false ∧
        all_chars json_plain (pair u) = true ∧
        is_finite (bid u) = true ∧ is_finite (ask u) = true ∧
        ¬ Json.well_formed_object (to_json u)).
Proof.
  split.
  - intros u Hex Hpr Hb Ha. exists 7%nat. rewrite to_json_template.
    apply template_well_formed; try done.
    + by apply (put_fixed_notation 7).
    + by apply (put_fixed_notation 7).
    + apply put_int_notation.
  - exists quote_in_name_update. split_and!; try (vm_compute; reflexivity).
    intros [fuel H]. revert H.
    do 3 (destruct fuel as [|fuel]; [by vm_compute|]). by vm_compute.
Qed.

Lemma to_json_well_formed_witness :
  Json.well_formed_object (to_json plain_update).
Proof.
  exact (proj1 to_json_well_formed plain_update eq_refl eq_refl eq_refl eq_refl).
Defined.

(** * Further properties

    The scanners of the venue clients, the exceptions of the parsers, the
    symbol tables and subscriptions, the session as a whole, and the
    feed server's broadcasts. *)

Lemma drop_cons (n : nat) (c : ascii) (r : string) :
  drop (S n) (String c r) = drop n r.
Proof. reflexivity. Qed.

Lemma drop_empty (n : nat) : drop n "" = "".
Proof. by destruct n. Qed.

Lemma drop_drop (n m : nat) (s : string) :
  drop m (drop n s) = drop (n + m) s.
Proof.
  revert s. induction n as [|n IH]; intros s; [done|].
  destruct s as [|c r]; [by rewrite !drop_empty|]. apply IH.
Qed.

Lemma length_drop (n : nat) (s : string) :
  String.length (drop n s) = (String.length s - n)%nat.
Proof.
  revert s. induction n as [|n IH]; intros s; [simpl; lia|].
  destruct s as [|c r]; [done|]. apply IH.
Qed.

Lemma prefix_length (pat s : string) :
  String.prefix pat s = true → (String.length pat ≤ String.length s)%nat.
Proof.
  intros [post ->]%prefix_split. rewrite length_append. lia.
Qed.

(** Where the first occurrence is, the pattern is, and nowhere before. *)
Lemma first_occurrence_Some (pat s : string) (i : nat) :
  first_occurrence pat s = Some i →
  String.prefix pat (drop i s) = true ∧
  (i + String.length pat ≤ String.length s)%nat ∧
  ∀ j, (j < i)%nat → String.prefix pat (drop j s) = false.
Proof.
  revert i. induction s as [|c r IH]; intros i; cbn [first_occurrence].
  - destruct (String.prefix pat "") eqn:Hp; [|done]. intros [= <-].
    split_and!; [done|by apply prefix_length in Hp|lia].
  - destruct (String.prefix pat (String c r)) eqn:Hp.
    + intros [= <-]. split_and!; [done|by apply prefix_length in Hp|lia].
    + destruct (first_occurrence pat r) as [k|]; [|done]. intros [= <-].
      destruct (IH k eq_refl) as (H1 & H2 & H3).
      split_and!; [done|simpl; lia|].
      intros [|j] Hj; [done|]. rewrite drop_cons. apply H3. lia.
Qed.

(** Without an occurrence the pattern is at no offset. *)
Lemma first_occurrence_None (pat s : string) (j : nat) :
  first_occurrence pat s = None → (j ≤ String.length s)%nat →
  String.prefix pat (drop j s) = false.
Proof.
  revert j. induction s as [|c r IH]; intros j; cbn [first_occurrence].
  - destruct (String.prefix pat "") eqn:Hp; [done|]. intros _ Hj.
    by rewrite drop_empty.
  - destruct (String.prefix pat (String c r)) eqn:Hp; [done|].
    destruct (first_occurrence pat r) eqn:E; [done|]. intros _ Hj.
    destruct j as [|j]; [done|]. rewrite drop_cons. apply IH; [done|].
    simpl in Hj. lia.
Qed.

Lemma size_nonneg (s : string) : 0 ≤ size s.
Proof. unfold size. lia. Qed.

(** A successful [find]: the result is at or after the start, the
    pattern lies there inside the string, and nowhere in between. *)
Lemma find_found (s pat : string) (pos : Z) :
  0 ≤ pos → find s pat pos ≠ npos →
  pos ≤ find s pat pos ∧ find s pat pos + size pat ≤ size s ∧
  String.prefix pat (drop (Z.to_nat (find s pat pos)) s) = true ∧
  ∀ q, pos ≤ q < find s pat pos →
       String.prefix pat (drop (Z.to_nat q) s) = false.
Proof.
  intros Hpos. unfold find. destruct (size s <? pos) eqn:E; [done|].
  apply Z.ltb_ge in E.
  destruct (first_occurrence pat (drop (Z.to_nat pos) s)) as [i|] eqn:Hf;
    [|done].
  intros _. apply first_occurrence_Some in Hf as (H1 & H2 & H3).
  rewrite drop_drop in H1. rewrite length_drop in H2. unfold size in *.
  split_and!.
  - lia.
  - lia.
  - by replace (Z.to_nat (pos + Z.of_nat i)) with (Z.to_nat pos + i)%nat by lia.
  - intros q Hq. specialize (H3 (Z.to_nat (q - pos)) ltac:(lia)).
    rewrite drop_drop in H3.
    by replace (Z.to_nat pos + Z.to_nat (q - pos))%nat with (Z.to_nat q)
      in H3 by lia.
Qed.

Lemma wrap_le (x : Z) : 0 ≤ x → 0 ≤ wrap x ≤ x.
Proof.
  intros H. unfold wrap. split; [apply Z.mod_pos_bound; lia|].
  apply Z.mod_le; lia.
Qed.

Lemma find_nonneg (s pat : string) (pos : Z) : 0 ≤ pos → 0 ≤ find s pat pos.
Proof.
  intros H. unfold find. repeat case_match; try done; unfold npos; lia.
Qed.

Lemma substr_Ok (s : string) (pos n : Z) :
  pos ≤ size s → ∃ v, substr s pos n = Ok v.
Proof.
  intros H. unfold substr.
  assert ((size s <? pos) = false) as -> by lia. by eexists.
Qed.

(** The value scanner never throws: its [substr] is always in range. *)
Lemma quoted_value_total (json : string) (pos : Z) :
  0 ≤ pos →
  ∃ v,
    (let pos := find json DQ pos in
     let end_ := find json DQ (wrap (pos + 1)) in
     if (pos =? npos) || (end_ =? npos) then Ok ""
     else substr json (wrap (pos + 1)) (wrap (end_ - pos - 1))) = Ok v.
Proof.
  intros Hpos. cbv zeta.
  destruct (find json DQ pos =? npos) eqn:E1; [by eexists|].
  destruct (find json DQ (wrap (find json DQ pos + 1)) =? npos);
    [by eexists|].
  cbn [orb]. apply substr_Ok.
  apply Z.eqb_neq in E1.
  destruct (find_found json DQ pos Hpos E1) as (H1 & H2 & _).
  change (size DQ) with 1 in H2.
  pose proof (wrap_le (find json DQ pos + 1)). lia.
Qed.

Lemma get_json_string_returns (json key : string) :
  ∃ v, get_json_string json key = Ok v.
Proof.
  unfold get_json_string.
  destruct (find json (quoted key) 0 =? npos); [by eexists|].
  apply quoted_value_total, find_nonneg, find_nonneg. lia.
Qed.

Lemma skip_commas_nonneg (json : string) (n : nat) (pos p : Z) :
  0 ≤ pos → skip_commas json n pos = Some p → 0 ≤ p.
Proof.
  revert pos. induction n as [|n IH]; intros pos Hpos; cbn [skip_commas].
  - by intros [= <-].
  - destruct (_ =? npos); [done|]. apply IH.
    apply find_nonneg, wrap_le. lia.
Qed.

Lemma get_nested_value_returns (json key : string) (index : Z) :
  ∃ v, get_nested_value json key index = Ok v.
Proof.
  unfold get_nested_value.
  destruct (find json (quoted key) 0 =? npos); [by eexists|].
  destruct (find json "[" _ =? npos); [by eexists|].
  destruct (skip_commas _ _ _) as [p|] eqn:E; [|by eexists].
  apply quoted_value_total. eapply skip_commas_nonneg; [|done].
  apply find_nonneg, find_nonneg. lia.
Qed.

(** X1. Neither value scanner throws: every search result is tested against
    [npos] before it is used, and the start of each [substr] lies inside
    the frame. *)
Theorem scanners_never_throw (json key : string) (index : Z) :
  (∃ v, get_json_string json key = Ok v) ∧
  (∃ v, get_nested_value json key index = Ok v).
Proof.
  split; [apply get_json_string_returns|apply get_nested_value_returns].
Qed.

Lemma drop_append_length (pre t : string) :
  drop (String.length pre) (pre +:+ t) = t.
Proof. induction pre as [|c pre IH]; [done|]. by rewrite append_cons. Qed.

Lemma drop_split (n : nat) (s : string) :
  (n ≤ String.length s)%nat →
  ∃ pre, s = pre +:+ drop n s ∧ String.length pre = n.
Proof.
  revert s. induction n as [|n IH]; intros s Hn.
  - by exists "".
  - destruct s as [|c r]; [simpl in Hn; lia|].
    destruct (IH r ltac:(simpl in Hn; lia)) as (pre & Hr & Hl).
    exists (String c pre). rewrite append_cons, drop_cons, <- Hr.
    split; [done|]. simpl. by rewrite Hl.
Qed.

Lemma substring_prefix (v rest : string) :
  String.substring 0 (String.length v) (v +:+ rest) = v.
Proof.
  induction v as [|d v IH].
  - rewrite append_nil_l. by destruct rest.
  - rewrite append_cons. cbn [String.length String.substring]. by rewrite IH.
Qed.

Lemma substring_append (pre v rest : string) :
  String.substring (String.length pre) (String.length v) (pre +:+ v +:+ rest)
  = v.
Proof.
  induction pre as [|c pre IH].
  - rewrite append_nil_l. apply substring_prefix.
  - rewrite append_cons. cbn [String.length String.substring]. apply IH.
Qed.

Lemma code_eqb_eq (a b : ascii) : (code a =? code b) = true → a = b.
Proof. intros H. apply code_inj. by apply Z.eqb_eq. Qed.

Lemma prefix_char (c : ascii) (s : string) :
  String.prefix (String c "") s = true ↔ ∃ r, s = String c r.
Proof.
  split.
  - intros [post ->]%prefix_split. by exists post.
  - intros [r ->]. simpl. destruct (ascii_dec c c); [by destruct r|done].
Qed.

(** The text before the first occurrence of a character does not hold
    the character. *)
Lemma first_occurrence_char (c : ascii) (s : string) (k : nat) :
  first_occurrence (String c "") s = Some k →
  ∃ v rest, s = v +:+ String c rest ∧ String.length v = k ∧
            all_chars (fun x => negb (code x =? code c)) v = true.
Proof.
  revert k. induction s as [|d r IH]; intros k; cbn [first_occurrence].
  - by destruct (String.prefix _ "") eqn:E.
  - destruct (String.prefix (String c "") (String d r)) eqn:E.
    + intros [= <-]. apply prefix_char in E as [r' [= -> ->]].
      by exists "", r'.
    + destruct (first_occurrence _ r) as [j|]; [|done]. intros [= <-].
      destruct (IH j eq_refl) as (v & rest & -> & Hl & Hv).
      exists (String d v), rest. split_and!; [done|simpl; by rewrite Hl|].
      cbn [all_chars]. rewrite Hv, andb_true_r.
      apply negb_true_iff, not_true_iff_false. intros ->%code_eqb_eq.
      by rewrite (proj2 (prefix_char c (String c (v +:+ String c rest))))
        in E by by eexists.
Qed.



Lemma size_append (a b : string) : size (a +:+ b) = size a + size b.
Proof. unfold size. rewrite length_append. lia. Qed.

Lemma wrap_small (x : Z) : 0 ≤ x ≤ npos → wrap x = x.
Proof. intros H. unfold wrap, npos in *. apply Z.mod_small. lia. Qed.

Lemma size_cons (c : ascii) (r : string) : size (String c r) = 1 + size r.
Proof. unfold size. simpl. lia. Qed.

Lemma quoted_append (v post : string) :
  quoted v +:+ post = String dquote (v +:+ String dquote post).
Proof.
  unfold quoted. by rewrite append_cons, append_assoc, append_cons, append_nil_l.
Qed.





Lemma substr_inv (s v : string) (pos n : Z) :
  substr s pos n = Ok v →
  pos ≤ size s ∧
  v = String.substring (Z.to_nat pos) (Z.to_nat (Z.min n (size s - pos))) s.
Proof.
  unfold substr. destruct (size s <? pos) eqn:E; [done|].
  intros [= <-]. split; [lia|done].
Qed.

(** The text the value scanner returns stands between two double quotes
    of the frame and holds none itself. *)
Lemma quoted_value_between (json v : string) (pos0 : Z) :
  0 ≤ pos0 → size json ≤ npos →
  (let pos := find json DQ pos0 in
   let end_ := find json DQ (wrap (pos + 1)) in
   if (pos =? npos) || (end_ =? npos) then Ok ""
   else substr json (wrap (pos + 1)) (wrap (end_ - pos - 1))) = Ok v →
  v = "" ∨
  ∃ pre rest, json = pre +:+ quoted v +:+ rest ∧ pos0 ≤ size pre ∧
              all_chars not_dquote v = true.
Proof.
  intros Hpos0 Hsize. cbv zeta.
  destruct (find json DQ pos0 =? npos) eqn:E1; [intros [= <-]; by left|].
  apply Z.eqb_neq in E1.
  destruct (find_found json DQ pos0 Hpos0 E1) as (Hge & Hle & Hq & _).
  set (pos := find json DQ pos0) in *. change (size DQ) with 1 in Hle.
  rewrite (wrap_small (pos + 1)) by lia.
  destruct (find json DQ (pos + 1) =? npos) eqn:E2; [intros [= <-]; by left|].
  apply Z.eqb_neq in E2. cbn [orb]. intros Hsub. right.
  (* the frame around the opening quote *)
  destruct (drop_split (Z.to_nat pos) json) as (pre & Hjson & Hpre);
    [unfold size in *; lia|].
  apply prefix_char in Hq as [body Hbody].
  (* the closing quote *)
  revert E2 Hsub. unfold find at 1 2.
  assert ((size json <? pos + 1) = false) as -> by lia.
  replace (drop (Z.to_nat (pos + 1)) json) with body.
  2:{ replace (Z.to_nat (pos + 1)) with (Z.to_nat pos + 1)%nat by lia.
      by rewrite <- drop_drop, Hbody. }
  destruct (first_occurrence DQ body) as [k|] eqn:Hk; [|done].
  intros _ Hsub.
  apply first_occurrence_char in Hk as (w & rest & -> & Hlen & Hw).
  apply substr_inv in Hsub as [_ ->].
  assert (json = (pre +:+ String dquote "") +:+ w +:+ String dquote rest)
    as Hjson2.
  { rewrite Hjson, Hbody. by rewrite append_assoc, append_cons, append_nil_l. }
  assert (size json = size pre + 1 + size w + 1 + size rest) as Hsz.
  { rewrite Hjson2. repeat rewrite ?size_append, ?size_cons.
    change (size "") with 0. lia. }
  pose proof (size_nonneg rest). pose proof (size_nonneg w).
  assert (size pre = pos) as Hp by (unfold size; lia).
  replace (pos + 1 + Z.of_nat k - pos - 1) with (size w)
    by (unfold size; lia).
  rewrite wrap_small by lia.
  replace (Z.to_nat (pos + 1))
    with (String.length (pre +:+ String dquote ""))
    by (rewrite length_append; unfold size in *; simpl; lia).
  replace (Z.to_nat (Z.min _ _)) with (String.length w)
    by (unfold size in *; lia).
  assert (String.substring (String.length (pre +:+ String dquote ""))
            (String.length w) json = w) as ->
    by (rewrite Hjson2; apply substring_append).
  exists pre, rest. split_and!; [|lia|done].
  by rewrite Hjson, Hbody, quoted_append.
Qed.

(** What [get_json_string] returns stands between two double quotes of
    the frame, unless it is the empty default. *)
Lemma get_json_string_in_quotes (json key v : string) :
  size json ≤ npos → get_json_string json key = Ok v →
  v = "" ∨ ∃ pre rest, json = pre +:+ quoted v +:+ rest.
Proof.
  intros Hsize. unfold get_json_string.
  destruct (find json (quoted key) 0 =? npos) eqn:E; [intros [= <-]; by left|].
  intros [->|(pre & rest & H1 & _ & H2)]%quoted_value_between;
    [by left| |apply find_nonneg, find_nonneg; lia|done].
  right. by exists pre, rest.
Qed.

(** X3. What [get_json_string] returns is the empty default, or a text that
    stands between two double quotes in a frame holding the quoted key;
    it never holds a double quote itself. *)
Theorem get_json_string_between (json key v : string) :
  size json ≤ npos → get_json_string json key = Ok v →
  v = "" ∨
  occurs (quoted key) json ∧
  ∃ pre rest, json = pre +:+ quoted v +:+ rest ∧
              all_chars not_dquote v = true.
Proof.
  intros Hsize. unfold get_json_string.
  destruct (find json (quoted key) 0 =? npos) eqn:E; [intros [= <-]; by left|].
  intros [->|(pre & rest & H1 & _ & H2)]%quoted_value_between;
    [by left| |apply find_nonneg, find_nonneg; lia|done].
  right. split; [|by eauto].
  revert E. unfold find. change (drop (Z.to_nat 0) json) with json.
  destruct (first_occurrence (quoted key) json) as [i|] eqn:Hi.
  - intros _. by eapply first_occurrence_occurs.
  - by destruct (size json <? 0).
Qed.

Lemma get_json_string_between_witness :
  size truncated_binance_frame ≤ npos ∧
  get_json_string truncated_binance_frame "s" = Ok "BTCUSDT" ∧
  ("BTCUSDT" = "" ∨
   occurs (quoted "s") truncated_binance_frame ∧
   ∃ pre rest, truncated_binance_frame = pre +:+ quoted "BTCUSDT" +:+ rest ∧
               all_chars not_dquote "BTCUSDT" = true).
Proof.
  assert (size truncated_binance_frame ≤ npos) as H1 by (by vm_compute).
  assert (get_json_string truncated_binance_frame "s" = Ok "BTCUSDT") as H2
    by (by vm_compute).
  split; [exact H1|]. split; [exact H2|].
  exact (get_json_string_between truncated_binance_frame "s" "BTCUSDT" H1 H2).
Defined.

(** X4. [has_key] tells whether the quoted key occurs anywhere in the
    frame, be it as a key or not. *)
Theorem has_key_iff (json key : string) :
  size json ≤ npos →
  has_key json key = true ↔ occurs (quoted key) json.
Proof.
  intros Hsize. unfold has_key, find.
  assert ((size json <? 0) = false) as -> by (pose proof (size_nonneg json); lia).
  change (drop (Z.to_nat 0) json) with json.
  destruct (first_occurrence (quoted key) json) as [i|] eqn:E.
  - apply first_occurrence_Some in E as (H1 & H2 & _).
    assert (0 + Z.of_nat i ≠ npos).
    { unfold quoted, size in *. simpl in H2. lia. }
    split; [|intros _; apply negb_true_iff; lia].
    intros _. apply prefix_split in H1 as [post H1].
    destruct (drop_split i json ltac:(lia)) as (pre & Hj & _).
    exists pre, post. by rewrite Hj at 1; rewrite H1.
  - split; [done|]. intros [j Hj]%occurs_first_occurrence. congruence.
Qed.

Lemma has_key_iff_witness :
  size kraken_heartbeat_frame ≤ npos ∧
  (has_key kraken_heartbeat_frame "event" = true
   ↔ occurs (quoted "event") kraken_heartbeat_frame).
Proof.
  assert (size kraken_heartbeat_frame ≤ npos) as H by (by vm_compute).
  split; [exact H|]. exact (has_key_iff kraken_heartbeat_frame "event" H).
Defined.

Lemma find_first_not_of_ws_blank (ws rest : string) (c : ascii) (i : Z) :
  all_chars is_blank ws = true → is_blank c = false →
  find_first_not_of_ws (ws +:+ String c rest) i = i + size ws.
Proof.
  revert i. induction ws as [|b ws IH]; intros i Hws Hc.
  - rewrite append_nil_l. cbn [find_first_not_of_ws].
    unfold is_blank in Hc. rewrite Hc. change (size "") with 0. lia.
  - rewrite append_cons. cbn [all_chars] in Hws.
    apply andb_true_iff in Hws as [Hb Hws]. cbn [find_first_not_of_ws].
    unfold is_blank in Hb. rewrite Hb, IH, size_cons by done. lia.
Qed.

Lemma find_first_not_of_ws_split (s : string) (i : Z) :
  find_first_not_of_ws s i = npos ∨
  ∃ ws c rest, s = ws +:+ String c rest ∧ all_chars is_blank ws = true ∧
               is_blank c = false ∧ find_first_not_of_ws s i = i + size ws.
Proof.
  revert i. induction s as [|b s IH]; intros i.
  - by left.
  - cbn [find_first_not_of_ws]. destruct (is_blank b) eqn:Hb.
    + unfold is_blank in Hb. rewrite Hb.
      destruct (IH (i + 1)) as [H|(ws & c & rest & -> & Hws & Hc & H)];
        [by left|right].
      exists (String b ws), c, rest. rewrite append_cons.
      split_and!; [done| |done|].
      * cbn [all_chars]. unfold is_blank at 1. by rewrite Hb.
      * rewrite H, size_cons. lia.
    + right. exists "", b, s. unfold is_blank in Hb. rewrite Hb.
      split_and!; try done. change (size "") with 0. lia.
Qed.

Lemma get_append (ws rest : string) (c : ascii) :
  String.get (String.length ws) (ws +:+ String c rest) = Some c.
Proof. induction ws as [|b ws IH]; [done|]. by rewrite append_cons. Qed.

(** X5. [is_array] holds of the frames that open with a bracket after
    blanks only. *)
Theorem is_array_iff (json : string) :
  size json ≤ npos →
  is_array json = true ↔
  ∃ ws rest, json = ws +:+ String "[" rest ∧ all_chars is_blank ws = true.
Proof.
  intros Hsize. unfold is_array, at_. split.
  - intros [Hn Hc]%andb_true_iff. apply negb_true_iff, Z.eqb_neq in Hn.
    destruct (find_first_not_of_ws_split json 0)
      as [|(ws & c & rest & -> & Hws & Hb & Hf)]; [done|].
    rewrite Hf in Hc. change (0 + size ws) with (size ws) in Hc.
    unfold size in Hc. rewrite Nat2Z.id, get_append in Hc.
    apply Z.eqb_eq in Hc. apply (code_inj c "[") in Hc as ->. eauto.
  - intros (ws & rest & -> & Hws).
    rewrite find_first_not_of_ws_blank by done.
    rewrite size_append, size_cons in Hsize.
    pose proof (size_nonneg rest). pose proof (size_nonneg ws).
    change (0 + size ws) with (size ws).
    assert ((size ws =? npos) = false) as -> by lia.
    unfold size. by rewrite Nat2Z.id, get_append.
Qed.

Lemma is_array_iff_witness :
  size kraken_tick_frame ≤ npos ∧
  (is_array kraken_tick_frame = true
   ↔ ∃ ws rest, kraken_tick_frame = ws +:+ String "[" rest
                ∧ all_chars is_blank ws = true).
Proof.
  assert (size kraken_tick_frame ≤ npos) as H by (by vm_compute).
  split; [exact H|]. exact (is_array_iff kraken_tick_frame H).
Defined.

(** A successful backward search: the result is at or before the start
    and the pattern lies there; nothing is found in between. *)
Lemma last_occurrence_found (pat s : string) (i : nat) :
  last_occurrence pat s i ≠ npos →
  ∃ j, last_occurrence pat s i = Z.of_nat j ∧ (j ≤ i)%nat ∧
       String.prefix pat (drop j s) = true ∧
       ∀ k, (j < k ≤ i)%nat → String.prefix pat (drop k s) = false.
Proof.
  induction i as [|i IH]; cbn [last_occurrence].
  - destruct (String.prefix pat (drop 0 s)) eqn:E; [|done].
    intros _. exists 0%nat. split_and!; [done..|]. lia.
  - destruct (String.prefix pat (drop (S i) s)) eqn:E.
    + intros _. exists (S i). split_and!; [done..|]. lia.
    + intros (j & Hj & Hle & Hp & Hlast)%IH. exists j.
      split_and!; [done|lia|done|].
      intros k Hk. destruct (decide (k = S i)) as [->|]; [done|].
      apply Hlast. lia.
Qed.

Lemma rfind_found (s pat : string) (pos : Z) :
  0 ≤ pos → rfind s pat pos ≠ npos →
  0 ≤ rfind s pat pos ≤ pos ∧ rfind s pat pos + size pat ≤ size s ∧
  String.prefix pat (drop (Z.to_nat (rfind s pat pos)) s) = true ∧
  ∀ q, rfind s pat pos < q ≤ Z.min (size s - size pat) pos →
       String.prefix pat (drop (Z.to_nat q) s) = false.
Proof.
  intros Hpos. unfold rfind. destruct (size pat <=? size s) eqn:E; [|done].
  apply Z.leb_le in E.
  intros (j & -> & Hj & Hp & Hlast)%last_occurrence_found.
  rewrite Nat2Z.id. split_and!; try lia; [done|].
  intros q Hq. apply Hlast. lia.
Qed.

Lemma rfind_nonneg (s pat : string) (pos : Z) : 0 ≤ rfind s pat pos.
Proof.
  unfold rfind. destruct (_ <=? _); [|done].
  generalize (Z.to_nat (Z.min (size s - size pat) pos)). intros i.
  induction i as [|i IH]; cbn [last_occurrence]; repeat case_match;
    try done; lia.
Qed.





(** X7. The reverse map of a venue holds exactly the entries of its forward
    map, turned around. *)
Theorem reverse_mapping_inverts (v : venue) (n c : string) :
  reverse_mapping v !! n = Some c ↔ pair_mapping v !! c = Some n.
Proof.
  rewrite reverse_mapping_unfold. split.
  - intros H%build_reverse_lookup_Some. by apply elem_of_map_to_list.
  - intros H. apply build_reverse_lookup.
    + apply pair_mapping_values_distinct.
    + by apply elem_of_map_to_list.
Qed.

Lemma pair_mapping_entries (v : venue) (c n : string) :
  pair_mapping v !! c = Some n →
  (c, n) ∈ map_to_list (pair_mapping v).
Proof. apply elem_of_map_to_list. Qed.





Lemma pair_mapping_nonempty (v : venue) (c : string) :
  pair_mapping v !! c ≠ Some "".
Proof.
  destruct v; unfold pair_mapping, BinanceClient.pair_mapping_,
    KrakenClient.pair_mapping_, CoinbaseClient.pair_mapping_,
    BybitClient.pair_mapping_, OKXClient.pair_mapping_;
  rewrite !lookup_insert_Some, lookup_empty;
  intros [[_ ?]|[_ [[_ ?]|[_ [[_ ?]|[_ [[_ ?]|[_ ?]]]]]]]]; done.
Qed.

Lemma reverse_lookup_symbol (v : venue) (frame sym canon : string) :
  size frame ≤ npos →
  reverse_mapping v !! as_looked_up v sym = Some canon →
  (sym = "" ∨
   ∃ pre rest, frame = pre +:+ quoted sym +:+ rest) →
  ∃ s, occurs (quoted s) frame ∧
       pair_mapping v !! canon = Some (as_looked_up v s).
Proof.
  intros Hsize Hrev [->|(pre & rest & ->)];
    rewrite reverse_mapping_unfold in Hrev;
    apply build_reverse_lookup_Some, elem_of_map_to_list in Hrev.
  - exfalso. apply (pair_mapping_nonempty v canon).
    rewrite Hrev. by destruct v.
  - exists sym. split; [by exists pre, rest|done].
Qed.

Lemma last_occurrence_none (pat s : string) (i j : nat) :
  last_occurrence pat s i = npos → Z.of_nat i < npos → (j ≤ i)%nat →
  String.prefix pat (drop j s) = false.
Proof.
  induction i as [|i IH]; cbn [last_occurrence].
  - destruct (String.prefix pat (drop 0 s)) eqn:E; [lia|]. intros _ _ Hj.
    by replace j with 0%nat by lia.
  - destruct (String.prefix pat (drop (S i) s)) eqn:E; [lia|]. intros H Hi Hj.
    destruct (decide (j = S i)) as [->|]; [done|]. apply IH; [done|lia|lia].
Qed.

Lemma drop_prefix_split (s : string) (p : nat) (c : ascii) :
  String.prefix (String c "") (drop p s) = true →
  (p < String.length s)%nat ∧
  ∃ pre body, s = pre +:+ String c body ∧ String.length pre = p ∧
              drop (S p) s = body.
Proof.
  intros [body Hb]%prefix_char.
  assert (p < String.length s)%nat as Hlt.
  { pose proof (length_drop p s) as Hl. rewrite Hb in Hl. simpl in Hl. lia. }
  split; [done|].
  destruct (drop_split p s ltac:(lia)) as (pre & Hs & Hl).
  exists pre, body. split_and!; [by rewrite Hs at 1; rewrite Hb|done|].
  replace (S p) with (p + 1)%nat by lia. by rewrite <- drop_drop, Hb.
Qed.

(** The text between the last two double quotes of an array frame. *)
Lemma kraken_pair_between (frame kp : string) :
  size frame ≤ npos → is_array frame = true →
  rfind frame DQ (wrap (rfind frame DQ npos - 1)) ≠ npos →
  substr frame (wrap (rfind frame DQ (wrap (rfind frame DQ npos - 1)) + 1))
    (wrap (rfind frame DQ npos
           - rfind frame DQ (wrap (rfind frame DQ npos - 1)) - 1)) = Ok kp →
  ∃ pre rest, frame = pre +:+ quoted kp +:+ rest.
Proof.
  intros Hsize Harr Hsl Hsub.
  set (lq := rfind frame DQ npos) in *.
  set (sl := rfind frame DQ (wrap (lq - 1))) in *.
  assert (0 ≤ wrap (lq - 1)) as Hw by (apply Z.mod_pos_bound; lia).
  destruct (rfind_found frame DQ _ Hw Hsl) as (Hsl1 & Hsl2 & Hslq & _).
  fold sl in Hsl1, Hsl2, Hslq. change (size DQ) with 1 in Hsl2.
  pose proof Hslq as Hq.
  apply drop_prefix_split in Hslq as (_ & pre & body & Hframe & Hpre & Hbody).
  (* the last quote exists *)
  assert (lq ≠ npos) as Hlq.
  { intros Hnone. unfold lq, rfind in Hnone.
    change (size DQ) with 1 in Hnone.
    assert ((1 <=? size frame) = true) as Hle by lia. rewrite Hle in Hnone.
    pose proof (last_occurrence_none DQ frame _ (Z.to_nat sl) Hnone) as Hno.
    rewrite Hno in Hq; [done|lia|lia]. }
  destruct (rfind_found frame DQ npos ltac:(done) Hlq) as (Hlq1 & Hlq2 & Hlqq & _).
  fold lq in Hlq1, Hlq2, Hlqq. change (size DQ) with 1 in Hlq2.
  (* it is not the first character of the frame *)
  assert (lq ≠ 0) as Hlq0.
  { intros H0. rewrite H0 in Hlqq.
    apply prefix_char in Hlqq as [r Hr]. change (drop (Z.to_nat 0) frame)
      with frame in Hr. rewrite Hr in Harr. done. }
  rewrite (wrap_small (lq - 1)) in * by lia.
  rewrite (wrap_small (sl + 1)) in Hsub by lia.
  rewrite (wrap_small (lq - sl - 1)) in Hsub by lia.
  apply substr_inv in Hsub as [_ ->].
  (* the frame between the two quotes *)
  assert (Z.of_nat (String.length pre) = sl) as Hpre' by lia.
  destruct (drop_prefix_split frame (Z.to_nat lq) dquote Hlqq)
    as (_ & pre2 & rest & Hframe2 & Hpre2 & _).
  assert (drop (Z.to_nat (lq - sl - 1)) body = String dquote rest) as Hrest.
  { rewrite <- Hbody, drop_drop.
    replace (S (Z.to_nat sl) + Z.to_nat (lq - sl - 1))%nat
      with (String.length pre2) by lia.
    rewrite Hframe2 at 1. apply drop_append_length. }
  destruct (drop_split (Z.to_nat (lq - sl - 1)) body) as (w & Hw1 & Hw2).
  { pose proof (length_drop (Z.to_nat (lq - sl - 1)) body) as Hl.
    rewrite Hrest in Hl. simpl in Hl. lia. }
  rewrite Hrest in Hw1.
  assert (frame = (pre +:+ String dquote "") +:+ w +:+ String dquote rest)
    as Hframe3.
  { rewrite Hframe at 1. rewrite Hw1 at 1.
    by rewrite append_assoc, append_cons, append_nil_l. }
  replace (Z.to_nat (sl + 1))
    with (String.length (pre +:+ String dquote ""))
    by (rewrite length_append; simpl; lia).
  assert (size frame = sl + 1 + (lq - sl - 1) + 1 + size rest) as Hsz.
  { rewrite Hframe3 at 1. repeat rewrite ?size_append, ?size_cons.
    change (size "") with 0. unfold size. lia. }
  pose proof (size_nonneg rest).
  replace (Z.to_nat (Z.min _ _)) with (String.length w) by lia.
  assert (String.substring (String.length (pre +:+ String dquote ""))
            (String.length w) frame = w) as ->
    by (rewrite Hframe3; apply substring_append).
  exists pre, rest. rewrite Hframe3.
  by rewrite quoted_append, append_assoc, append_cons, append_nil_l.
Qed.

(** X10. An update is emitted only for a frame that carries, between double
    quotes, a symbol of the venue's table; the update's pair is the
    canonical pair of that symbol. *)
Theorem emitted_symbol_in_frame (v : venue) (now : Z) (frame : string)
    (u : PriceUpdate) :
  size frame ≤ npos →
  @parse (client_of v) now frame = Ok (Some u) →
  ∃ sym, occurs (quoted sym) frame ∧
         pair_mapping v !! pair u = Some (as_looked_up v sym).
Proof.
  intros Hsize.
  destruct v; cbn [parse client_of];
    [unfold BinanceClient.parse_message, BinanceClient.parse_message_body
    |unfold KrakenClient.parse_message, KrakenClient.parse_message_body
    |unfold CoinbaseClient.parse_message, CoinbaseClient.parse_message_body
    |unfold BybitClient.parse_message, BybitClient.parse_message_body
    |unfold OKXClient.parse_message, OKXClient.parse_message_body];
    intros H; parse_cases; cbn [pair].
  all: try match goal with
    | Hg : get_json_string ?f ?k = Ok ?s,
      Hr : _ !! _ = Some ?canon |- _ =>
        match type of Hr with
        | context [s] =>
          let Hb := fresh in
          pose proof (get_json_string_in_quotes f k s Hsize Hg) as Hb
        end
    end.
  all: try match goal with
    | Hb : ?a = "" ∨ _, Hr : _ !! _ = Some ?canon |- ∃ _, _ ∧ pair_mapping ?v !! _ = _ =>
        apply (reverse_lookup_symbol v frame a canon Hsize Hr);
        destruct Hb as [->|(pre & rest & ->)];
        [by left|right; by exists pre, rest]
    end.
  match goal with
  | Ha : negb (is_array frame) = false, Hn : (_ =? npos) = false,
    Hs : substr frame _ _ = Ok ?kp, Hr : _ !! ?kp = Some ?canon |- _ =>
      apply negb_false_iff in Ha; apply Z.eqb_neq in Hn;
      apply (reverse_lookup_symbol Kraken frame kp canon Hsize Hr); right;
      exact (kraken_pair_between frame kp Hsize Ha Hn Hs)
  end.
Qed.

Lemma emitted_symbol_in_frame_witness :
  size kraken_tick_frame ≤ npos ∧
  ∃ sym, occurs (quoted sym) kraken_tick_frame ∧
         pair_mapping Kraken !! pair plain_update
         = Some (as_looked_up Kraken sym).
Proof.
  assert (size kraken_tick_frame ≤ npos) as Hsize by (by vm_compute).
  split; [exact Hsize|].
  apply (emitted_symbol_in_frame Kraken 1700000000123456789
           kraken_tick_frame plain_update Hsize).
  vm_compute. reflexivity.
Defined.

(** What a parser puts into an update besides the two prices: the
    venue's name, a pair out of the reverse table, and the clock reading
    it was given; nothing of it is read from the frame. *)
Lemma parse_emits_mapped (v : venue) (now : Z) (frame : string)
    (u : PriceUpdate) :
  @parse (client_of v) now frame = Ok (Some u) →
  exchange u = @client_name (client_of v) ∧ timestamp u = now ∧
  ∃ n, reverse_mapping v !! n = Some (pair u).
Proof.
  destruct v; cbn [parse client_of client_name];
    [unfold BinanceClient.parse_message, BinanceClient.parse_message_body
    |unfold KrakenClient.parse_message, KrakenClient.parse_message_body
    |unfold CoinbaseClient.parse_message, CoinbaseClient.parse_message_body
    |unfold BybitClient.parse_message, BybitClient.parse_message_body
    |unfold OKXClient.parse_message, OKXClient.parse_message_body];
    intros H; parse_cases.
  all: split; [reflexivity|]; split; [reflexivity|]; cbn [pair]; by eexists.
Qed.

Lemma client_name_plain (v : venue) :
  all_chars json_plain (@client_name (client_of v)) = true.
Proof. by destruct v; vm_compute. Qed.

Lemma canonical_pair_plain (c : string) :
  c ∈ canonical_pairs → all_chars json_plain c = true.
Proof.
  unfold canonical_pairs. rewrite !elem_of_cons, elem_of_nil.
  intros [->|[->|[->|[->|[]]]]]; by vm_compute.
Qed.

(** X11. From a venue frame to the feed: the text [to_json] gives for an
    update a parser emitted with finite prices is a well-formed JSON
    object. *)
Theorem emitted_line_well_formed (v : venue) (now : Z) (frame : string)
    (u : PriceUpdate) :
  @parse (client_of v) now frame = Ok (Some u) →
  is_finite (bid u) = true → is_finite (ask u) = true →
  Json.well_formed_object (to_json u).
Proof.
  intros (Hex & _ & n & Hn)%parse_emits_mapped Hb Ha.
  exists 7%nat. rewrite to_json_template.
  apply template_well_formed.
  - rewrite Hex. apply client_name_plain.
  - by eapply canonical_pair_plain, reverse_mapping_canonical.
  - by apply (put_fixed_notation 7).
  - by apply (put_fixed_notation 7).
  - apply put_int_notation.
Qed.

Lemma emitted_line_well_formed_witness :
  Json.well_formed_object (to_json plain_update).
Proof.
  apply (emitted_line_well_formed Kraken 1700000000123456789
           kraken_tick_frame plain_update); vm_compute; reflexivity.
Defined.

(** X12. The timestamp of an emitted update is the clock reading the parser was
    called with, whatever time the frame itself states. *)
Theorem emitted_timestamp_is_local (v : venue) (now : Z)
    (frame : string) (u : PriceUpdate) :
  @parse (client_of v) now frame = Ok (Some u) → timestamp u = now.
Proof. by intros (_ & ? & _)%parse_emits_mapped. Qed.

Lemma emitted_timestamp_is_local_witness :
  timestamp plain_update = 1700000000123456789.
Proof.
  apply (emitted_timestamp_is_local Kraken 1700000000123456789
           kraken_tick_frame plain_update).
  by vm_compute.
Defined.

Section Session.
Context (c : Client).

Lemma take_pending_length (op : operation) (l rest : list operation) :
  take_pending op l = Some rest → length l = S (length rest).
Proof.
  revert rest. induction l as [|o l IH]; intros rest; [done|].
  cbn [take_pending]. case_decide; [by intros [= <-]|].
  destruct (take_pending op l) as [r|]; [|done]. intros [= <-].
  simpl. by rewrite (IH r).
Qed.

(** A handler starts at most one operation, and hands the callback what
    [emission] says. *)
Lemma handler_effect (op : operation) (k : completion) (s : session) :
  (length (pending (handler c k s)) ≤ S (length (pending s)))%nat ∧
  notified (handler c k s) = (notified s ++ emission c (Complete op k))%list.
Proof.
  destruct k as [ec|ec sni|ec|ec|ec|ec m now|]; cbn [handler emission];
    unfold on_resolve, on_connect, ssl_handshake, on_ssl_handshake,
      ws_handshake, on_ws_handshake, subscribe, on_write, on_read, read,
      on_wait, resolve, connect, reconnect, async, set_attempts,
      notify_price_update;
    repeat case_match; cbn [pending notified running_];
    rewrite ?length_app, ?app_nil_r; simpl length; split; try done; lia.
Qed.

Lemma step_effect (ev : event) (s s' : session) :
  step c ev s = Some s' →
  (length (pending s') ≤ length (pending s) + (if is_start ev then 1 else 0))%nat
  ∧ notified s' = (notified s ++ emission c ev)%list.
Proof.
  destruct ev as [| |op k]; cbn [step is_start emission].
  - intros [= <-]. cbn. rewrite length_app, app_nil_r. simpl. split; [lia|done].
  - intros [= <-]. cbn. rewrite app_nil_r. split; [lia|done].
  - destruct (completes k op); [|done].
    destruct (take_pending op (pending s)) as [rest|] eqn:Ht; [|done].
    intros [= <-]. apply take_pending_length in Ht.
    destruct (handler_effect op k
      {| running_ := running_ s; reconnect_attempts_ := reconnect_attempts_ s;
         pending := rest; issued := issued s; notified := notified s |})
      as [H1 H2].
    cbn [pending notified] in *. split; [lia|done].
Qed.

(** X13. A session has at most as many operations outstanding as [start()]
    was called; its callback receives, in the order of the frames, the
    updates their parses give. *)
Theorem run_effect (evs : list event) (s s' : session) :
  run c evs s = Some s' →
  (length (pending s')
   ≤ length (pending s) + length (List.filter is_start evs))%nat ∧
  notified s' = (notified s ++ concat (map (emission c) evs))%list.
Proof.
  revert s. induction evs as [|ev evs IH]; intros s; cbn [run].
  - intros [= <-]. rewrite app_nil_r. split; [simpl; lia|done].
  - destruct (step c ev s) as [s1|] eqn:Hstep; [|done].
    intros [H1 H2]%IH. apply step_effect in Hstep as [H3 H4].
    cbn [List.filter map concat]. rewrite H2, H4, <- app_assoc.
    split; [|done]. destruct (is_start ev); simpl in *; lia.
Qed.

End Session.

Lemma run_effect_witness :
  run (client_of Kraken)
    [Complete AsyncRead (ReadDone false kraken_tick_frame 1700000000123456789)]
    kraken_reading
  = Some {| running_ := true; reconnect_attempts_ := 0;
            pending := [AsyncRead]; issued := [AsyncRead];
            notified := [plain_update] |} ∧
  (1 ≤ 1 + 0)%nat ∧
  [plain_update]
  = ([] ++ concat (map (emission (client_of Kraken))
       [Complete AsyncRead
          (ReadDone false kraken_tick_frame 1700000000123456789)]))%list.
Proof.
  assert (run (client_of Kraken)
            [Complete AsyncRead
               (ReadDone false kraken_tick_frame 1700000000123456789)]
            kraken_reading
          = Some {| running_ := true; reconnect_attempts_ := 0;
                    pending := [AsyncRead]; issued := [AsyncRead];
                    notified := [plain_update] |}) as H by (by vm_compute).
  split; [exact H|].
  exact (run_effect (client_of Kraken) _ _ _ H).
Defined.

Section Stopped.
Context (c : Client).

Lemma step_issued_stopped (ev : event) (s s' : session) :
  running_ s = false → winds_down ev = true → step c ev s = Some s' →
  running_ s' = false ∧ issued s' = issued s ∧
  S (length (pending s')) = length (pending s).
Proof.
  intros Hr Hw. destruct ev as [| |op k]; try done. cbn [step].
  destruct (completes k op); [|done].
  destruct (take_pending op (pending s)) as [rest|] eqn:Ht; [|done].
  apply take_pending_length in Ht. intros [= <-].
  assert (handler c k
            {| running_ := running_ s;
               reconnect_attempts_ := reconnect_attempts_ s;
               pending := rest; issued := issued s; notified := notified s |}
          = {| running_ := running_ s;
               reconnect_attempts_ := reconnect_attempts_ s;
               pending := rest; issued := issued s; notified := notified s |})
    as ->.
  { destruct k as [ec|ec sni|ec|ec|ec|ec m now|]; cbn [winds_down is_failure] in Hw.
    all: try (rewrite handler_failure by done;
              apply reconnect_gives_up; by left).
    cbn [handler]. unfold on_wait. cbn [running_]. by rewrite Hr. }
  cbn [running_ issued pending]. split_and!; [done|done|lia].
Qed.

(** X14. Once stopped, a session whose operations end in errors and whose
    timer expires starts nothing: each completion only takes one
    operation off the pending list. *)
Theorem stopped_session_winds_down (evs : list event) (s s' : session) :
  running_ s = false → Forall (fun ev => winds_down ev = true) evs →
  run c evs s = Some s' →
  running_ s' = false ∧ issued s' = issued s ∧
  (length (pending s') + length evs)%nat = length (pending s).
Proof.
  intros Hr Hall. revert s Hr.
  induction Hall as [|ev evs Hw _ IH]; intros s Hr; cbn [run].
  - intros [= <-]. split_and!; try done; simpl; lia.
  - destruct (step c ev s) as [s1|] eqn:Hstep; [|done].
    destruct (step_issued_stopped ev s s1 Hr Hw Hstep) as (Hr1 & Hi1 & Hl1).
    intros (H1 & H2 & H3)%(IH s1 Hr1).
    split_and!; [done|congruence|simpl; lia].
Qed.

(** [stop()] itself starts nothing and only clears the running flag. *)
Lemma stop_effect (s : session) :
  running_ (stop s) = false ∧ issued (stop s) = issued s ∧
  pending (stop s) = pending s ∧
  reconnect_attempts_ (stop s) = reconnect_attempts_ s.
Proof. done. Qed.

End Stopped.

Lemma stopped_session_winds_down_witness :
  running_ (stop kraken_reading) = false ∧
  run (client_of Kraken) [Complete AsyncRead (ReadDone true "" 0)]
    (stop kraken_reading)
  = Some {| running_ := false; reconnect_attempts_ := 0; pending := [];
            issued := []; notified := [] |} ∧
  issued (stop kraken_reading) = [] ∧
  pending (stop kraken_reading) = [AsyncRead].
Proof.
  assert (run (client_of Kraken) [Complete AsyncRead (ReadDone true "" 0)]
            (stop kraken_reading)
          = Some {| running_ := false; reconnect_attempts_ := 0;
                    pending := []; issued := []; notified := [] |}) as H
    by (by vm_compute).
  pose proof (stopped_session_winds_down (client_of Kraken)
                [Complete AsyncRead (ReadDone true "" 0)]
                (stop kraken_reading) _ eq_refl
                ltac:(by repeat constructor) H) as (_ & H2 & _).
  split; [reflexivity|]. split; [exact H|]. split; [|reflexivity].
  symmetry. exact H2.
Defined.

Lemma broadcast_received (net : network) (u : PriceUpdate)
    (st : server * wire) (x : socket) :
  NoDup (clients_ st.1) →
  received (broadcast_price net u st).2 x
  = if decide (x ∈ clients_ st.1)
    then received st.2 x
         +:+ delivered (net x) (to_json u +:+ String LF "")
    else received st.2 x.
Proof.
  intros Hnd. unfold broadcast_price.
  pose proof (remove_if_write_member net (to_json u +:+ String LF "")
                (clients_ st.1) st.2 x Hnd) as Hin.
  pose proof (remove_if_write_other net (to_json u +:+ String LF "")
                (clients_ st.1) st.2 x) as Hout.
  destruct (remove_if_write _ _ _ _) as [kept w]. cbn [snd] in *.
  case_decide; auto.
Qed.

(** X15. What one broadcast does: it keeps the consumers whose write
    completed, in their order, and adds none; each consumer of the set
    has received what its write transferred of the line, and no other
    socket anything. *)
Theorem broadcast_effect (net : network) (u : PriceUpdate)
    (st : server * wire) :
  well_formed_server st.1 →
  clients_ (broadcast_price net u st).1
  = List.filter (fun c => write_ok (net c)) (clients_ st.1) ∧
  ∀ x, received (broadcast_price net u st).2 x
       = if decide (x ∈ clients_ st.1)
         then received st.2 x
              +:+ delivered (net x) (to_json u +:+ String LF "")
         else received st.2 x.
Proof.
  intros [Hnd _]. split; [apply broadcast_clients|].
  intros x. by apply broadcast_received.
Qed.

Lemma broadcast_effect_witness :
  well_formed_server (handle_accept (handle_accept listening)).1 ∧
  clients_ (broadcast_price failing_first plain_update
              (handle_accept (handle_accept listening))).1 = [1%nat].
Proof.
  assert (well_formed_server (handle_accept (handle_accept listening)).1)
    as H by exact (acts_well_formed [Accept; Accept] listening
                     listening_well_formed).
  split; [exact H|].
  pose proof (broadcast_effect failing_first plain_update _ H) as [-> _].
  reflexivity.
Defined.

Lemma act_wire_bounded (a : action) (st : server * wire) :
  well_formed_server st.1 → wire_bounded st → wire_bounded (act a st).
Proof.
  intros [Hnd Hlt] Hb x Hx. destruct a as [|net u]; cbn [act] in *.
  - apply Hb. cbn in Hx. lia.
  - rewrite (proj2 (broadcast_clients net u st)) in Hx.
    rewrite broadcast_received by done.
    rewrite decide_False; [by apply Hb|].
    intros Hin%Hlt. lia.
Qed.

Lemma acts_invariants (l : list action) (st : server * wire) :
  well_formed_server st.1 → wire_bounded st →
  well_formed_server (acts l st).1 ∧ wire_bounded (acts l st).
Proof.
  revert st. induction l as [|a l IH]; intros st Hwf Hb; [done|].
  apply IH; [by apply act_well_formed|by apply act_wire_bounded].
Qed.

Lemma listening_wire_bounded : wire_bounded listening.
Proof. intros x _. reflexivity. Qed.

Lemma acts_cons (a : action) (l : list action) (st : server * wire) :
  acts (a :: l) st = acts l (act a st).
Proof. reflexivity. Qed.

Lemma acts_app (l1 l2 : list action) (st : server * wire) :
  acts (l1 ++ l2) st = acts l2 (acts l1 st).
Proof. unfold acts. apply foldl_app. Qed.

(** A consumer all of whose writes complete stays in the set and
    receives every line, in the order of the broadcasts. *)
Lemma steady_consumer (l : list action) (st : server * wire) (x : socket) :
  well_formed_server st.1 → x ∈ clients_ st.1 →
  writes_complete x l = true →
  x ∈ clients_ (acts l st).1 ∧
  received (acts l st).2 x = received st.2 x +:+ lines l.
Proof.
  revert st. induction l as [|a l IH]; intros st Hwf Hx Hok.
  - split; [done|]. cbn. by rewrite append_nil_r.
  - pose proof (act_well_formed a st Hwf) as Hwf'.
    rewrite acts_cons.
    destruct a as [|net u]; cbn [act writes_complete lines] in *.
    + destruct (IH (handle_accept st) Hwf') as [H1 H2]; [|done|done].
      cbn. apply elem_of_app. by left.
    + apply andb_true_iff in Hok as [Hnet Hok].
      destruct (IH (broadcast_price net u st) Hwf') as [H1 H2]; [|done|].
      * rewrite (proj1 (broadcast_clients net u st)).
        apply list_elem_of_In, List.filter_In. split; [by apply list_elem_of_In|done].
      * split; [done|]. rewrite H2, broadcast_received by apply Hwf.
        rewrite decide_True by done.
        destruct (net x); [|done]. cbn [delivered].
        by rewrite !append_assoc.
Qed.

(** X16. A consumer that connects after [history] and whose writes all
    complete has received exactly the lines broadcast since, in order,
    and none of those broadcast before. *)
Theorem consumer_receives_in_order (history l : list action) :
  let x := next_socket (acts history listening).1 in
  writes_complete x l = true →
  x ∈ clients_ (acts (history ++ Accept :: l) listening).1 ∧
  received (acts (history ++ Accept :: l) listening).2 x = lines l.
Proof.
  intros x Hok. rewrite acts_app, acts_cons. cbn [act].
  destruct (acts_invariants history listening listening_well_formed
              listening_wire_bounded) as [Hwf Hb].
  pose proof (act_well_formed Accept _ Hwf) as Hwf'. cbn [act] in Hwf'.
  destruct (steady_consumer l (handle_accept (acts history listening)) x
              Hwf') as [H1 H2]; [|done|].
  - cbn. apply elem_of_app. right. by apply list_elem_of_singleton.
  - split; [done|]. rewrite H2. cbn [handle_accept snd].
    by rewrite (Hb x) by (unfold x; lia).
Qed.

Lemma consumer_receives_in_order_witness :
  1%nat ∈ clients_ (acts ([Accept; Broadcast failing_first plain_update]
                          ++ Accept :: [Broadcast failing_first plain_update])
                      listening).1 ∧
  received (acts ([Accept; Broadcast failing_first plain_update]
                  ++ Accept :: [Broadcast failing_first plain_update])
              listening).2 1%nat
  = lines [Broadcast failing_first plain_update].
Proof.
  exact (consumer_receives_in_order
           [Accept; Broadcast failing_first plain_update]
           [Broadcast failing_first plain_update] eq_refl).
Defined.






